(** * Boom: the gameplay core of the rhythm game

    A shallow embedding of the game logic of [App.tsx] (chart loading in
    [startGame], the judgment of a lane press in [handleLaneInput], the
    per-frame [loop]; in this tree the component follows the two versions of
    [components/FloatingTextManager.tsx]), of the clock collaborator
    [AudioService] ([services/audioService.ts]) and of the types of
    [types.ts], followed by the properties of the specification, each proved
    or refuted on these definitions.

    Conventions of the embedding.
    - A JavaScript number is an exact rational ([Q]); [NaN] is the [None] of
      [option Q].  Rounding of IEEE doubles is not modelled, except in the
      loop of the demo track, whose outcome depends on it and which is
      computed on binary64 floats.
    - A [useRef] cell is a field of the [Game] record, assigned by a setter;
      the [useState] mirrors that the user interface reads are fields too.
    - Objects mutated through a reference (the beats of the chart) live in
      the list [beatsRef]; mutating one beat is replacing it at its position.
    - [Math.random()] and the clock of the audio context are inputs. *)

From Stdlib Require Import QArith Qabs Qround ZArith List String Bool Lia Lqa.
From Stdlib Require Import Sorting.Sorted Sorting.Permutation.
From Stdlib Require Floats.PrimFloat Floats.FloatOps Floats.SpecFloat.
Import ListNotations.

Local Open Scope Q_scope.

(** ** Numbers *)

(** [x < y] on numbers, as a boolean. *)
Definition num_lt (x y : Q) : bool := negb (Qle_bool y x).

(** [x > y]. *)
Definition num_gt (x y : Q) : bool := num_lt y x.

(** [Math.min(a, b)] and [Math.max(a, b)] on numbers that are not NaN. *)
Definition Math_min (a b : Q) : Q := if Qle_bool a b then a else b.
Definition Math_max (a b : Q) : Q := if Qle_bool b a then a else b.

(** [Math.abs]. *)
Definition Math_abs (x : Q) : Q := Qabs x.

(** [Math.floor]. *)
Definition Math_floor (x : Q) : Z := Qfloor x.

(** ** JavaScript values, as [JSON.parse] and property reads produce them *)

#[local] Unset Elimination Schemes.
Inductive JSValue : Type :=
| JUndefined
| JNull
| JBool (b : bool)
| JNumber (q : Q)
| JString (s : string)
| JArray (items : list JSValue)
| JObject (fields : list (string * JSValue)).
#[local] Set Elimination Schemes.

(** [Array.isArray(v)]. *)
Definition Array_isArray (v : JSValue) : bool :=
  match v with JArray _ => true | _ => false end.

(** [typeof v === 'number']. *)
Definition typeof_number (v : JSValue) : bool :=
  match v with JNumber _ => true | _ => false end.

Fixpoint lookup_field (k : string) (fields : list (string * JSValue)) : JSValue :=
  match fields with
  | [] => JUndefined
  | (k', v) :: rest => if String.eqb k k' then v else lookup_field k rest
  end.

(** The property read [v.k] for [k] one of [time], [lane].  Reading a
    property of [null] or [undefined] throws a TypeError ([None]); a boolean,
    a number, a string or an array has no such property ([undefined]). *)
Definition get_prop (v : JSValue) (k : string) : option JSValue :=
  match v with
  | JUndefined | JNull => None
  | JObject fields => Some (lookup_field k fields)
  | _ => Some JUndefined
  end.

(** [v ?? d]. *)
Definition nullish (v d : JSValue) : JSValue :=
  match v with JUndefined | JNull => d | _ => v end.

(** The numeric value that [-] and [+ 0.15] give to an operand; [None] is NaN.
    The Beat interface declares [time: number]; [undefined], [null] and
    booleans follow ToNumber.  Strings, arrays and objects in a [time] field
    (for which [+] concatenates) are outside the interface and are given NaN
    here. *)
Definition ToNumber (v : JSValue) : option Q :=
  match v with
  | JNumber q => Some q
  | JNull => Some 0
  | JBool true => Some 1
  | JBool false => Some 0
  | _ => None
  end.

(** [v === n] for a number [n]. *)
Definition strict_eq_number (v : JSValue) (n : Z) : bool :=
  match v with JNumber q => Qeq_bool q (inject_Z n) | _ => false end.

(** ** types.ts *)

Inductive GameState : Type := SETUP | PLAYING | FINISHED.

Definition GameState_eqb (a b : GameState) : bool :=
  match a, b with
  | SETUP, SETUP | PLAYING, PLAYING | FINISHED, FINISHED => true
  | _, _ => false
  end.

(** [interface Beat].  At run time [time] and [lane] hold whatever the chart
    JSON put there, so they are JavaScript values. *)
Record Beat : Type := mkBeat {
  id : nat;
  time : JSValue;
  lane : JSValue;
  hit : bool;
  missed : bool
}.

Definition set_hit (v : bool) (b : Beat) : Beat :=
  mkBeat (id b) (time b) (lane b) v (missed b).
Definition set_missed (v : bool) (b : Beat) : Beat :=
  mkBeat (id b) (time b) (lane b) (hit b) v.

(** ** services/audioService.ts *)

Module AudioService.

(** The [AudioContext]: its clock [currentTime] is advanced by the
    environment. *)
Record AudioContext : Type := mkCtx { currentTime : Q }.

(** An [AudioBuffer], of which the game reads the duration only. *)
Record AudioBuffer : Type := mkBuffer { duration : Q }.

(** An [AudioBufferSourceNode] with the time it was scheduled to start. *)
Record SourceNode : Type := mkSource { src_buffer : AudioBuffer; src_start : Q }.

Record t : Type := mk {
  ctx : option AudioContext;
  source : option SourceNode;
  buffer : option AudioBuffer;
  startTime : Q
}.

(** The fields of a fresh [new AudioService()]. *)
Definition new : t := mk None None None 0.

Definition init (s : t) : t :=
  match ctx s with
  | None => mk (Some (mkCtx 0)) (source s) (buffer s) (startTime s)
  | Some _ => s
  end.

(** The end of a successful [loadFile] or [createDemoTrack]: [init()] and
    the assignment of the decoded or synthesized buffer. *)
Definition setBuffer (b : AudioBuffer) (s : t) : t :=
  let s := init s in mk (ctx s) (source s) (Some b) (startTime s).

Definition stop (s : t) : t :=
  match source s with
  | Some _ => mk (ctx s) None (buffer s) (startTime s)
  | None => s
  end.

Definition play (delay : Q) (s : t) : t :=
  match ctx s, buffer s with
  | Some c, Some b =>
      let s := stop s in
      let startCtxTime := currentTime c + delay in
      mk (ctx s) (Some (mkSource b startCtxTime)) (buffer s) startCtxTime
  | _, _ => s
  end.

Definition getCurrentTime (s : t) : Q :=
  match ctx s, source s with
  | Some c, Some _ => currentTime c - startTime s
  | _, _ => 0
  end.

(** [this.buffer?.duration || 0]. *)
Definition getDuration (s : t) : Q :=
  match buffer s with
  | Some b => if Qeq_bool (duration b) 0 then 0 else duration b
  | None => 0
  end.

Definition isReady (s : t) : bool :=
  match buffer s with Some _ => true | None => false end.

(** The environment: the clock of the audio context moves by [dt]. *)
Definition advance (dt : Q) (s : t) : t :=
  match ctx s with
  | Some c => mk (Some (mkCtx (currentTime c + dt))) (source s) (buffer s) (startTime s)
  | None => s
  end.

End AudioService.

(** ** App.tsx: constants and state *)

Definition HIT_WINDOW : Q := 15 # 100.
Definition PERFECT_WINDOW : Q := 5 # 100.

(** The texts that [alert] shows. *)
Inductive Alert : Type :=
| AlertNoAudio        (* asks to upload audio or choose the demo first *)
| AlertNoChart        (* asks to enter chart data *)
| AlertInvalidChart.  (* chart data invalid *)

Inductive Rating : Type := PERFECT | GREAT | BLOOM.

(** The state of the [App] component: the [useState] values that the user
    interface shows, the [useRef] cells of the game logic, the audio service
    singleton, the alerts shown so far, and whether an animation frame
    running [loop] is requested. *)
Record Game : Type := mkGame {
  gameState : GameState;
  score : Z;
  combo : Z;
  heat : Q;
  tier : Z;
  currentTimeDisplay : Q;
  rawBeatsInput : string;
  scoreRef : Z;
  comboRef : Z;
  heatRef : Q;
  beatsRef : list Beat;
  audio : AudioService.t;
  alerts : list Alert;
  frame : bool
}.

Definition setGameState (v : GameState) (g : Game) : Game :=
  mkGame v (score g) (combo g) (heat g) (tier g) (currentTimeDisplay g)
    (rawBeatsInput g) (scoreRef g) (comboRef g) (heatRef g) (beatsRef g)
    (audio g) (alerts g) (frame g).
Definition setScore (v : Z) (g : Game) : Game :=
  mkGame (gameState g) v (combo g) (heat g) (tier g) (currentTimeDisplay g)
    (rawBeatsInput g) (scoreRef g) (comboRef g) (heatRef g) (beatsRef g)
    (audio g) (alerts g) (frame g).
Definition setCombo (v : Z) (g : Game) : Game :=
  mkGame (gameState g) (score g) v (heat g) (tier g) (currentTimeDisplay g)
    (rawBeatsInput g) (scoreRef g) (comboRef g) (heatRef g) (beatsRef g)
    (audio g) (alerts g) (frame g).
Definition setHeat (v : Q) (g : Game) : Game :=
  mkGame (gameState g) (score g) (combo g) v (tier g) (currentTimeDisplay g)
    (rawBeatsInput g) (scoreRef g) (comboRef g) (heatRef g) (beatsRef g)
    (audio g) (alerts g) (frame g).
Definition setTier (v : Z) (g : Game) : Game :=
  mkGame (gameState g) (score g) (combo g) (heat g) v (currentTimeDisplay g)
    (rawBeatsInput g) (scoreRef g) (comboRef g) (heatRef g) (beatsRef g)
    (audio g) (alerts g) (frame g).
Definition setCurrentTimeDisplay (v : Q) (g : Game) : Game :=
  mkGame (gameState g) (score g) (combo g) (heat g) (tier g) v
    (rawBeatsInput g) (scoreRef g) (comboRef g) (heatRef g) (beatsRef g)
    (audio g) (alerts g) (frame g).
Definition setRawBeatsInput (v : string) (g : Game) : Game :=
  mkGame (gameState g) (score g) (combo g) (heat g) (tier g) (currentTimeDisplay g)
    v (scoreRef g) (comboRef g) (heatRef g) (beatsRef g)
    (audio g) (alerts g) (frame g).
Definition set_scoreRef (v : Z) (g : Game) : Game :=
  mkGame (gameState g) (score g) (combo g) (heat g) (tier g) (currentTimeDisplay g)
    (rawBeatsInput g) v (comboRef g) (heatRef g) (beatsRef g)
    (audio g) (alerts g) (frame g).
Definition set_comboRef (v : Z) (g : Game) : Game :=
  mkGame (gameState g) (score g) (combo g) (heat g) (tier g) (currentTimeDisplay g)
    (rawBeatsInput g) (scoreRef g) v (heatRef g) (beatsRef g)
    (audio g) (alerts g) (frame g).
Definition set_heatRef (v : Q) (g : Game) : Game :=
  mkGame (gameState g) (score g) (combo g) (heat g) (tier g) (currentTimeDisplay g)
    (rawBeatsInput g) (scoreRef g) (comboRef g) v (beatsRef g)
    (audio g) (alerts g) (frame g).
Definition set_beatsRef (v : list Beat) (g : Game) : Game :=
  mkGame (gameState g) (score g) (combo g) (heat g) (tier g) (currentTimeDisplay g)
    (rawBeatsInput g) (scoreRef g) (comboRef g) (heatRef g) v
    (audio g) (alerts g) (frame g).
Definition set_audio (v : AudioService.t) (g : Game) : Game :=
  mkGame (gameState g) (score g) (combo g) (heat g) (tier g) (currentTimeDisplay g)
    (rawBeatsInput g) (scoreRef g) (comboRef g) (heatRef g) (beatsRef g)
    v (alerts g) (frame g).
Definition alert (a : Alert) (g : Game) : Game :=
  mkGame (gameState g) (score g) (combo g) (heat g) (tier g) (currentTimeDisplay g)
    (rawBeatsInput g) (scoreRef g) (comboRef g) (heatRef g) (beatsRef g)
    (audio g) (alerts g ++ [a]) (frame g).
Definition set_frame (v : bool) (g : Game) : Game :=
  mkGame (gameState g) (score g) (combo g) (heat g) (tier g) (currentTimeDisplay g)
    (rawBeatsInput g) (scoreRef g) (comboRef g) (heatRef g) (beatsRef g)
    (audio g) (alerts g) v.

(** The component as first mounted, around a given audio service. *)
Definition initialGame (a : AudioService.t) : Game :=
  mkGame SETUP 0 0 0 0 0 EmptyString 0 0 0 [] a [] false.

(** The main-loop effect, whose dependency is [gameState]: outside PLAYING it
    cancels the requested frame and stops the audio; in PLAYING it requests
    the first frame. *)
Definition mainLoopEffect (g : Game) : Game :=
  if GameState_eqb (gameState g) PLAYING
  then set_frame true g
  else set_frame false (set_audio (AudioService.stop (audio g)) g).

(** After an event handler, the effect runs when [gameState] has changed. *)
Definition rerender (before : GameState) (g : Game) : Game :=
  if GameState_eqb before (gameState g) then g else mainLoopEffect g.

(** ** App.tsx: loading a chart *)

(** One step of [beatData.map((b, i) => ({id: i, time: ..., lane: ...,
    hit: false, missed: false}))]; [None] is the TypeError of reading a
    property of [null]. *)
Definition parseBeat (i : nat) (b : JSValue) : option Beat :=
  if typeof_number b then Some (mkBeat i b (JNumber 1) false false)
  else
    match get_prop b "time", get_prop b "lane" with
    | Some t, Some l => Some (mkBeat i t (nullish l (JNumber 1)) false false)
    | _, _ => None
    end.

Fixpoint parseBeats (i : nat) (beatData : list JSValue) : option (list Beat) :=
  match beatData with
  | [] => Some []
  | b :: rest =>
      match parseBeat i b with
      | None => None
      | Some x =>
          match parseBeats (S i) rest with
          | None => None
          | Some xs => Some (x :: xs)
          end
      end
  end.

(** The comparator [(a, b) => a.time - b.time]; [None] is NaN. *)
Definition compareFn (a b : Beat) : option Q :=
  match ToNumber (time a), ToNumber (time b) with
  | Some x, Some y => Some (x - y)
  | _, _ => None
  end.

(** [a] sorts after [b]: the comparator gives a positive number (a NaN
    counts as [+0]). *)
Definition sorts_after (a b : Beat) : bool :=
  match compareFn a b with
  | Some v => num_gt v 0
  | None => false
  end.

(** [Array.prototype.sort] is a stable sort; with a consistent comparator
    its result is the one of any stable sort, here insertion from the right.
    (With times that are NaN the order is implementation-defined.) *)
Fixpoint sort_insert (x : Beat) (sorted : list Beat) : list Beat :=
  match sorted with
  | [] => [x]
  | y :: rest => if sorts_after x y then y :: sort_insert x rest else x :: y :: rest
  end.

Definition Array_sort (l : list Beat) : list Beat := fold_right sort_insert [] l.

(** How the body of the [try] block of [startGame] ends before the chart is
    installed. *)
Inductive Loaded : Type :=
| Chart (parsedBeats : list Beat)
| EarlyReturn (a : Alert)
| Thrown.

Section WithJSON.

(** [JSON.parse]; [None] is its SyntaxError. *)
Variable JSON_parse : string -> option JSValue.

Definition loadChart (overrideBeats : option (list JSValue)) (g : Game) : Loaded :=
  let beatData :=
    match overrideBeats with
    | Some l => inl (Some (JArray l))
    | None =>
        if String.eqb (rawBeatsInput g) EmptyString then inr AlertNoChart
        else inl (JSON_parse (rawBeatsInput g))
    end in
  match beatData with
  | inr a => EarlyReturn a
  | inl None => Thrown
  | inl (Some (JArray items)) =>
      match parseBeats 0 items with
      | Some parsedBeats => Chart (Array_sort parsedBeats)
      | None => Thrown
      end
  | inl (Some _) => Thrown
  end.

Definition startGame (overrideBeats : option (list JSValue)) (g : Game) : Game :=
  if negb (AudioService.isReady (audio g)) then alert AlertNoAudio g
  else
    match loadChart overrideBeats g with
    | EarlyReturn a => alert a g
    | Thrown => alert AlertInvalidChart g
    | Chart parsedBeats =>
        let before := gameState g in
        let g := set_beatsRef parsedBeats g in
        let g := set_scoreRef 0 g in
        let g := set_comboRef 0 g in
        let g := set_heatRef 0 g in
        let g := setScore 0 g in
        let g := setCombo 0 g in
        let g := setHeat 0 g in
        let g := setTier 0 g in
        let g := setCurrentTimeDisplay (-3) g in
        let g := setGameState PLAYING g in
        let g := set_audio (AudioService.play 3 (audio g)) g in
        rerender before g
    end.

End WithJSON.

(** ** App.tsx: judging a lane press *)

(** [Math.abs(b.time - currentTime)]; [None] is NaN. *)
Definition timing_diff (b : Beat) (currentTime : Q) : option Q :=
  match ToNumber (time b) with
  | Some t => Some (Math_abs (t - currentTime))
  | None => None
  end.

(** [d < w] where [d] may be NaN. *)
Definition nan_lt (d : option Q) (w : Q) : bool :=
  match d with Some x => num_lt x w | None => false end.

(** The predicate passed to [beatsRef.current.find]. *)
Definition hittable (laneIndex : Z) (currentTime : Q) (b : Beat) : bool :=
  negb (hit b) && negb (missed b) && strict_eq_number (lane b) laneIndex
  && nan_lt (timing_diff b currentTime) HIT_WINDOW.

(** [hittableBeat.hit = true] on the beat that [find] returned: the first
    beat of the chart that satisfies the predicate. *)
Fixpoint hit_first (p : Beat -> bool) (beats : list Beat) : list Beat :=
  match beats with
  | [] => []
  | b :: rest => if p b then set_hit true b :: rest else b :: hit_first p rest
  end.

(** Rating, [scoreAdd] and [heatAdd] of a hit; [draw] is [Math.random()]. *)
Definition judge (diff : option Q) (comboNow : Z) (draw : Q) : Rating * Z * Q :=
  if nan_lt diff PERFECT_WINDOW
  then ((if (30 <? comboNow)%Z && num_gt draw (8 # 10) then BLOOM else PERFECT),
        300%Z, 10)
  else (GREAT, 100%Z, 5).

(** [handleLaneInput(laneIndex)]; the result also carries the rating handed
    to the visual spawners, when a beat was hit.  The lane lights, which a
    judged press writes first and which the judgement never reads, are kept
    apart from the game: see [handleLaneInputLit]. *)
Definition handleLaneInput (laneIndex : Z) (draw : Q) (g : Game) : Game * option Rating :=
  if negb (GameState_eqb (gameState g) PLAYING) then (g, None)
  else
    let currentTime := AudioService.getCurrentTime (audio g) in
    if num_lt currentTime 0 then (g, None)
    else
      match find (hittable laneIndex currentTime) (beatsRef g) with
      | None => (g, None)
      | Some hittableBeat =>
          let diff := timing_diff hittableBeat currentTime in
          let '(rating, scoreAdd, heatAdd) := judge diff (comboRef g) draw in
          let g := set_beatsRef (hit_first (hittable laneIndex currentTime) (beatsRef g)) g in
          let g := set_scoreRef (scoreRef g + scoreAdd)%Z g in
          let g := set_comboRef (comboRef g + 1)%Z g in
          let g := set_heatRef (Math_min 100 (heatRef g + heatAdd)) g in
          let g := setScore (scoreRef g) g in
          let g := setCombo (comboRef g) g in
          let g := setHeat (heatRef g) g in
          (g, Some rating)
      end.

(** ** App.tsx: the main loop *)

Definition getTierFromRef (g : Game) : Z :=
  let c := comboRef g in
  if (c <? 10)%Z then 0%Z
  else if (c <? 30)%Z then 1%Z
  else if (c <? 50)%Z then 2%Z
  else 3%Z.

(** [now > beat.time + HIT_WINDOW]; false when the sum is NaN. *)
Definition past_window (now : Q) (beat : Beat) : bool :=
  match ToNumber (time beat) with
  | Some t => num_gt now (t + HIT_WINDOW)
  | None => false
  end.

(** The condition of the miss check. *)
Definition overdue (now : Q) (beat : Beat) : bool :=
  negb (hit beat) && negb (missed beat) && past_window now beat.

(** The penalty of one miss. *)
Definition penalty (g : Game) : Game :=
  let g := set_comboRef 0 g in
  let g := set_heatRef (Math_max 0 (heatRef g - 15)) g in
  let g := setCombo 0 g in
  setHeat (heatRef g) g.

(** [beatsRef.current.forEach(beat => ...)] of the miss check: the beats in
    chart order, the penalties threaded through the game state. *)
Fixpoint checkMisses (now : Q) (beats : list Beat) (g : Game) : list Beat * Game :=
  match beats with
  | [] => ([], g)
  | beat :: rest =>
      if overdue now beat
      then let '(rest', g') := checkMisses now rest (penalty g) in
           (set_missed true beat :: rest', g')
      else let '(rest', g') := checkMisses now rest g in
           (beat :: rest', g')
  end.

(** One run of [loop], the animation-frame callback.  The drawing and the
    visual entities are left out. *)
Definition loop (g : Game) : Game :=
  let before := gameState g in
  let now := AudioService.getCurrentTime (audio g) in
  let g := if num_lt now (1 # 2) then setCurrentTimeDisplay now g else g in
  let g := set_heatRef (Math_max 0 (heatRef g - (15 # 100))) g in
  let g := setTier (getTierFromRef g) g in
  let g := if (Z.rem (Math_floor (now * 60)) 4 =? 0)%Z then setHeat (heatRef g) g else g in
  let dur := AudioService.getDuration (audio g) in
  if num_gt now (dur + 2) && num_gt dur 0
  then rerender before (set_frame false (setGameState FINISHED g))
  else
    let g :=
      if num_gt now 0
      then let '(beats, g') := checkMisses now (beatsRef g) g in set_beatsRef beats g'
      else g in
    set_frame true g.

(** ** App.tsx: the buttons of the FINISHED screen *)

(** The replay button. *)
Definition restart (g : Game) : Game :=
  if negb (GameState_eqb (gameState g) FINISHED) then g
  else
    let before := gameState g in
    let g := setGameState PLAYING g in
    let g := setScore 0 g in
    let g := setCombo 0 g in
    let g := setHeat 0 g in
    let g := set_audio (AudioService.play 3 (audio g)) g in
    let g := set_beatsRef (map (fun b => set_missed false (set_hit false b)) (beatsRef g)) g in
    let g := set_comboRef 0 g in
    let g := set_scoreRef 0 g in
    let g := set_heatRef 0 g in
    rerender before g.

(** The main-menu button. *)
Definition mainMenu (g : Game) : Game :=
  if negb (GameState_eqb (gameState g) FINISHED) then g
  else rerender (gameState g) (setGameState SETUP g).

(** ** Runs of the game *)

(** What happens between two user actions on the menus: the audio clock
    moves, a requested animation frame fires, a lane key is pressed. *)
Inductive Event : Type :=
| Advance (dt : Q)
| Frame
| Key (laneIndex : Z) (draw : Q).

Definition step (e : Event) (g : Game) : Game :=
  match e with
  | Advance dt => set_audio (AudioService.advance dt (audio g)) g
  | Frame => if frame g then loop g else g
  | Key laneIndex draw => fst (handleLaneInput laneIndex draw g)
  end.

Definition run (es : list Event) (g : Game) : Game :=
  fold_left (fun g e => step e g) es g.

(** ** Vocabulary of the statements *)

(** The bound that the heat meter is to respect. *)
Definition in_range (h : Q) : Prop := 0 <= h <= 100.

(** The calls that the application makes on the audio service. *)
Inductive AudioCall : Type :=
| CallInit
| CallSetBuffer (b : AudioService.AudioBuffer)
| CallPlay (delay : Q)
| CallStop
| CallAdvance (dt : Q).

Definition audioCall (c : AudioCall) (s : AudioService.t) : AudioService.t :=
  match c with
  | CallInit => AudioService.init s
  | CallSetBuffer b => AudioService.setBuffer b s
  | CallPlay delay => AudioService.play delay s
  | CallStop => AudioService.stop s
  | CallAdvance dt => AudioService.advance dt s
  end.

Definition is_play (c : AudioCall) : bool :=
  match c with CallPlay _ => true | _ => false end.

(** The service with a 30-second buffer, [play(3.0)] called, the clock one
    second into the countdown. *)
Definition counting_down : AudioService.t :=
  AudioService.advance 1
    (AudioService.play 3 (AudioService.setBuffer (AudioService.mkBuffer 30) AudioService.new)).

(** Both the heat of the game logic and its mirror shown in the heat bar
    are within bounds. *)
Definition heat_ok (g : Game) : Prop := in_range (heatRef g) /\ in_range (heat g).

(** The state of [loop] when it reaches its finish check: the countdown
    display, the heat decay and the tier and heat mirrors are done. *)
Definition decayed (g : Game) : Game :=
  let now := AudioService.getCurrentTime (audio g) in
  let g := if num_lt now (1 # 2) then setCurrentTimeDisplay now g else g in
  let g := set_heatRef (Math_max 0 (heatRef g - (15 # 100))) g in
  let g := setTier (getTierFromRef g) g in
  if (Z.rem (Math_floor (now * 60)) 4 =? 0)%Z then setHeat (heatRef g) g else g.

(** The finish check of [loop]. *)
Definition song_over (g : Game) : bool :=
  let now := AudioService.getCurrentTime (audio g) in
  let dur := AudioService.getDuration (audio g) in
  num_gt now (dur + 2) && num_gt dur 0.

(** A whole session: besides the events of play, the user edits the chart
    text, loads audio, starts the game, and uses the two buttons of the
    FINISHED screen. *)
Inductive Action : Type :=
| Play (e : Event)
| TypeChart (text : string)
| UploadAudio (b : AudioService.AudioBuffer)
| StartGame (overrideBeats : option (list JSValue))
| Replay
| MainMenu.

Section Session.

Variable JSON_parse : string -> option JSValue.

Definition perform (a : Action) (g : Game) : Game :=
  match a with
  | Play e => step e g
  | TypeChart text => setRawBeatsInput text g
  | UploadAudio b => set_audio (AudioService.setBuffer b (audio g)) g
  | StartGame overrideBeats => startGame JSON_parse overrideBeats g
  | Replay => restart g
  | MainMenu => mainMenu g
  end.

Definition session (acts : list Action) (g : Game) : Game :=
  fold_left (fun g a => perform a g) acts g.

End Session.

(** ** Examples *)

(** The audio service once a 30-second track is loaded. *)
Definition track_loaded : AudioService.t :=
  AudioService.setBuffer (AudioService.mkBuffer 30) AudioService.new.

(** A game in PLAYING whose clock reads [t] seconds after the scheduled
    start of a track of [dur] seconds. *)
Definition playing_at (dur t : Q) (beats : list Beat) (comboNow : Z) (heatNow : Q) : Game :=
  mkGame PLAYING 0 comboNow heatNow 0 0 EmptyString 0 comboNow heatNow beats
    (AudioService.advance (3 + t)
       (AudioService.play 3
          (AudioService.setBuffer (AudioService.mkBuffer dur) AudioService.new)))
    [] true.

(** A fresh, unresolved beat. *)
Definition beat (i : nat) (t : Q) (laneIndex : Z) : Beat :=
  mkBeat i (JNumber t) (JNumber (inject_Z laneIndex)) false false.

(** What the miss check does to one beat, and the floor of one penalty. *)
Definition mark_overdue (now : Q) (b : Beat) : Beat :=
  if overdue now b then set_missed true b else b.

Definition cool_down (h : Q) : Q := Math_max 0 (h - 15).

(** A beat and its later self: identity, time and lane are kept, a beat that
    is hit or missed is kept whole, and a beat whose two flags are not both
    set does not get both set. *)
Definition evolves (b b' : Beat) : Prop :=
  id b' = id b /\ time b' = time b /\ lane b' = lane b /\
  (hit b = true \/ missed b = true -> b' = b) /\
  (hit b && missed b = false -> hit b' && missed b' = false).

Definition exclusive (b : Beat) : Prop := hit b && missed b = false.

Definition pending (b : Beat) : Prop := hit b = false /\ missed b = false.

(** The time of a beat as a number, and the order of the chart. *)
Definition timed (b : Beat) : Prop := exists t, ToNumber (time b) = Some t.

Definition time_le (a b : Beat) : Prop :=
  match ToNumber (time a), ToNumber (time b) with
  | Some x, Some y => x <= y
  | _, _ => False
  end.


(** The array that [startGame] loads: the override when there is one,
    otherwise what the non-empty chart text parses to. *)
Definition chart_array (JSON_parse : string -> option JSValue)
           (overrideBeats : option (list JSValue)) (g : Game) (items : list JSValue) : Prop :=
  match overrideBeats with
  | Some l => items = l
  | None => rawBeatsInput g <> EmptyString /\
            JSON_parse (rawBeatsInput g) = Some (JArray items)
  end.

(** The [lane] property of a chart entry that is not [null]. *)
Definition entry_lane (entry : JSValue) : JSValue :=
  match entry with
  | JObject fields => lookup_field "lane" fields
  | _ => JUndefined
  end.

(** The double quote, and the text of a chart with one entry in lane 5. *)
Definition dquote : string := String (Ascii.ascii_of_nat 34) EmptyString.

Definition lane5_text : string :=
  ("[{" ++ dquote ++ "time" ++ dquote ++ ":1," ++ dquote ++ "lane" ++ dquote ++ ":5}]")%string.

(** [JSON.parse] on the texts that the examples use (no example uses
    another text). *)
Definition JSON_parse_examples (text : string) : option JSValue :=
  if String.eqb text "[]" then Some (JArray [])
  else if String.eqb text "[2, 1, 1.1]"
       then Some (JArray [JNumber 2; JNumber 1; JNumber (11 # 10)])
  else if String.eqb text lane5_text
       then Some (JArray [JObject [("time"%string, JNumber 1); ("lane"%string, JNumber 5)]])
  else if String.eqb text "[null]" then Some (JArray [JNull])
  else if String.eqb text "{}" then Some (JObject [])
  else None.

(** The component in SETUP with the 30-second track loaded and [text] in the
    chart box. *)
Definition setup_with (text : string) : Game :=
  setRawBeatsInput text (initialGame track_loaded).

(** ** Proof steps *)

(** Read the fields of the game through the [rerender] at the head of the
    goal. *)
Ltac through_rerender keeps :=
  cbv zeta;
  match goal with
  | |- context [rerender ?b ?x] => pose proof (keeps b x) as Hkeeps
  end.

(** * More of the application *)

(** ** App.tsx: the keyboard *)

(** What [handleKeyDown] reads of a [KeyboardEvent]. *)
Record KeyboardEvent : Type := mkKey { code : string; repeat : bool }.

(** The [keydown] listener: three independent tests of [e.code], after the
    test of [e.repeat].  [draw] is the [Math.random()] of the press. *)
Definition handleKeyDown (e : KeyboardEvent) (draw : Q) (g : Game) : Game :=
  if repeat e then g
  else
    let g := if String.eqb (code e) "KeyA" then fst (handleLaneInput 0 draw g) else g in
    let g := if String.eqb (code e) "Space" then fst (handleLaneInput 1 draw g) else g in
    if String.eqb (code e) "KeyD" then fst (handleLaneInput 2 draw g) else g.

(** Play as the browser delivers it: the clock moves, a frame fires, a key
    goes down. *)
Inductive BrowserEvent : Type :=
| Tick (dt : Q)
| AnimationFrame
| KeyDown (e : KeyboardEvent) (draw : Q).

Definition deliver (e : BrowserEvent) (g : Game) : Game :=
  match e with
  | Tick dt => step (Advance dt) g
  | AnimationFrame => step Frame g
  | KeyDown k draw => handleKeyDown k draw g
  end.

Definition deliver_all (es : list BrowserEvent) (g : Game) : Game :=
  fold_left (fun g e => deliver e g) es g.

(** A beat that no key reaches: its lane is none of 0, 1 and 2. *)
Definition off_track (b : Beat) : Prop :=
  strict_eq_number (lane b) 0 = false /\
  strict_eq_number (lane b) 1 = false /\
  strict_eq_number (lane b) 2 = false.

(** ** App.tsx: the lane lights *)

(** [activeLanesRef], which the receptors are drawn from, and the timeouts
    armed by presses: the lane each will switch off, and its delay in
    milliseconds. *)
Record Lights : Type := mkLights {
  activeLanesRef : list bool;
  timeouts : list (Z * Z)
}.

Definition initialLights : Lights := mkLights [false; false; false] [].

(** [copy[i] = v] on a copy of an array of booleans.  An index past the end
    extends the array, the holes reading as [undefined], which is falsy; a
    negative index is no element of the array. *)
Definition write_lane (i : Z) (v : bool) (lanes : list bool) : list bool :=
  if (i <? 0)%Z then lanes
  else
    let n := Z.to_nat i in
    if (n <? List.length lanes)%nat
    then firstn n lanes ++ v :: skipn (S n) lanes
    else lanes ++ List.repeat false (n - List.length lanes) ++ [v].

(** [handleLaneInput(laneIndex)] together with the lane lights: after the
    two guards the pressed lane is lit and its release armed, then the press
    is judged as in [handleLaneInput] above. *)
Definition handleLaneInputLit (laneIndex : Z) (draw : Q) (gl : Game * Lights)
  : (Game * Lights) * option Rating :=
  let '(g, l) := gl in
  if negb (GameState_eqb (gameState g) PLAYING) then (gl, None)
  else
    let currentTime := AudioService.getCurrentTime (audio g) in
    if num_lt currentTime 0 then (gl, None)
    else
      let newActive := write_lane laneIndex true (activeLanesRef l) in
      let l := mkLights newActive (timeouts l ++ [(laneIndex, 100%Z)]) in
      let '(g, rating) := handleLaneInput laneIndex draw g in
      ((g, l), rating).

(** The callback of the timeout armed by a press of [laneIndex]. *)
Definition releaseLane (laneIndex : Z) (l : Lights) : Lights :=
  mkLights (write_lane laneIndex false (activeLanesRef l)) (timeouts l).

(** ** App.tsx: the countdown overlay *)

Definition getCountdownText (g : Game) : string :=
  if num_lt (currentTimeDisplay g) (-2) then "3"
  else if num_lt (currentTimeDisplay g) (-1) then "2"
  else if num_lt (currentTimeDisplay g) 0 then "1"
  else "".

(** ** Vocabulary of the further statements *)

(** The number of beats that are hit. *)
Definition hits (beats : list Beat) : Z := Z.of_nat (List.length (filter hit beats)).

(** The score and combo that the game logic holds are consistent with the
    chart, and the mirrors shown to the player agree with them. *)
Definition score_ok (g : Game) : Prop :=
  (100 * hits (beatsRef g) <= scoreRef g <= 300 * hits (beatsRef g))%Z /\
  (0 <= comboRef g <= hits (beatsRef g))%Z /\
  score g = scoreRef g /\ combo g = comboRef g.

(** The audio service can play whenever it is ready. *)
Definition playable (s : AudioService.t) : Prop :=
  AudioService.buffer s <> None -> AudioService.ctx s <> None.

(** The frame request follows the phase, and outside PLAYING the audio has
    no source. *)
Definition phase_ok (g : Game) : Prop :=
  (frame g = true <-> gameState g = PLAYING) /\
  (gameState g <> PLAYING -> AudioService.source (audio g) = None) /\
  playable (audio g).

(** A beat and its later self, for a beat that no key reaches: the beat is
    an [evolves] successor, and if off the three lanes it is still not hit. *)
Definition out_of_reach (b b' : Beat) : Prop :=
  evolves b b' /\ (off_track b -> hit b' = hit b).

(** A chart whose times are all numbers is in ascending order of time. *)
Definition chart_sorted (g : Game) : Prop :=
  Forall timed (beatsRef g) -> StronglySorted time_le (beatsRef g).

(** ** types.ts: the visual entities *)

Module FloatingText.
Record t : Type := mk {
  id : Q; text : string; x : Q; y : Q; color : string;
  scale : Q; opacity : Q; createdAt : Q
}.
End FloatingText.

Module Debris.
Record t : Type := mk {
  id : Q; x : Q; y : Q; vx : Q; vy : Q; rotation : Q; deltaRotation : Q;
  color : string; size : Q; life : Q
}.
End Debris.

Module Shockwave.
Record t : Type := mk {
  id : Q; x : Q; y : Q; color : string; size : Q; opacity : Q
}.
End Shockwave.

(** ** App.tsx: updating the entities in place *)

(** The loop [let i = 0; while (i < arr.length) { const t = arr[i]; update t;
    if (expired t) arr.splice(i, 1); else i++; }], which the main loop runs
    on the texts, the debris and the shockwaves.  [fuel] bounds the number of
    iterations; [None] is a loop cut short. *)
Fixpoint updateInPlace {A : Type} (update : A -> A) (expired : A -> bool)
         (fuel i : nat) (arr : list A) : option (list A) :=
  match nth_error arr i with
  | None => Some arr
  | Some t =>
      match fuel with
      | O => None
      | S fuel' =>
          let t' := update t in
          if expired t'
          then updateInPlace update expired fuel' i (firstn i arr ++ skipn (S i) arr)
          else updateInPlace update expired fuel' (S i)
                 (firstn i arr ++ t' :: skipn (S i) arr)
      end
  end.

(** [t.y -= 1.5; t.opacity -= 0.02] and [t.opacity <= 0]. *)
Definition riseText (t : FloatingText.t) : FloatingText.t :=
  FloatingText.mk (FloatingText.id t) (FloatingText.text t) (FloatingText.x t)
    (FloatingText.y t - (15 # 10)) (FloatingText.color t) (FloatingText.scale t)
    (FloatingText.opacity t - (2 # 100)) (FloatingText.createdAt t).

Definition textGone (t : FloatingText.t) : bool := Qle_bool (FloatingText.opacity t) 0.

(** [p.x += p.vx; p.y += p.vy; p.vy += 0.8; p.rotation += p.deltaRotation;
    p.life -= 0.02] and [p.life <= 0]. *)
Definition moveDebris (p : Debris.t) : Debris.t :=
  Debris.mk (Debris.id p) (Debris.x p + Debris.vx p) (Debris.y p + Debris.vy p)
    (Debris.vx p) (Debris.vy p + (8 # 10)) (Debris.rotation p + Debris.deltaRotation p)
    (Debris.deltaRotation p) (Debris.color p) (Debris.size p) (Debris.life p - (2 # 100)).

Definition debrisGone (p : Debris.t) : bool := Qle_bool (Debris.life p) 0.

(** [s.size += 15; s.opacity -= 0.05] and [s.opacity <= 0]. *)
Definition growShockwave (s : Shockwave.t) : Shockwave.t :=
  Shockwave.mk (Shockwave.id s) (Shockwave.x s) (Shockwave.y s) (Shockwave.color s)
    (Shockwave.size s + 15) (Shockwave.opacity s - (5 # 100)).

Definition shockwaveGone (s : Shockwave.t) : bool := Qle_bool (Shockwave.opacity s) 0.

(** The three entity lists held in [textRef], [debrisRef], [shockwavesRef]. *)
Record Entities : Type := mkEntities {
  textRef : list FloatingText.t;
  debrisRef : list Debris.t;
  shockwavesRef : list Shockwave.t
}.

(** The "Update Entities" part of [loop]. *)
Definition updateEntities (fuel : nat) (e : Entities) : option Entities :=
  match updateInPlace riseText textGone fuel 0 (textRef e) with
  | None => None
  | Some texts =>
      match updateInPlace moveDebris debrisGone fuel 0 (debrisRef e) with
      | None => None
      | Some debris =>
          match updateInPlace growShockwave shockwaveGone fuel 0 (shockwavesRef e) with
          | None => None
          | Some shockwaves => Some (mkEntities texts debris shockwaves)
          end
      end
  end.


(** ** App.tsx: the screen shake *)

(** [shakeIntensityRef.current = rating === 'BLOOM' ? 25 : 10] of a hit. *)
Definition shakeOfHit (rating : Rating) : Q :=
  match rating with BLOOM => 25 | _ => 10 end.

(** [if (shake > 0) shake = Math.max(0, shake - 1)] of a frame. *)
Definition decayShake (shake : Q) : Q :=
  if num_gt shake 0 then Math_max 0 (shake - 1) else shake.

(** ** services/audioService.ts: the demo track *)

Module BeatData.
Record t : Type := mk { time : PrimFloat.float; lane : Z }.
End BeatData.

(** [x % y] on numbers: the remainder of the division truncated toward 0. *)
Definition num_rem (x y : Q) : Q :=
  let q := x / y in
  x - y * inject_Z (if Qle_bool 0 q then Qfloor q else Qceiling q).

(** The value of a double, which is a rational (infinities and NaN, which
    the demo loop never produces, are given 0). *)
Definition Q_of_double (f : PrimFloat.float) : Q :=
  match FloatOps.Prim2SF f with
  | SpecFloat.S754_finite s m e =>
      (if s then - inject_Z (Zpos m) else inject_Z (Zpos m)) * Qpower 2 e
  | _ => 0
  end.

Section Doubles.

Import PrimFloat.

(** The double nearest to 0.01, the literal of the down-beat test. *)
Definition one_hundredth : float := 0x1.47ae147ae147bp-7%float.

(** The loop [for (let t = 0; t < duration; t += beatInterval / 2)] of
    [createDemoTrack], as far as the beats go (the synthesis of the samples
    is left out); [t] is the loop variable and [beats] the array so far.
    [None] is a loop cut short by [fuel].  The loop variable is a double and
    [+], [/], [<] and [>=] are those of binary64.  [t % beatInterval] is
    exact on doubles, so it is computed on the values of its operands, and
    so is [Math.floor] of the rounded quotient [t / beatInterval]. *)
Fixpoint demoLoop (fuel : nat) (duration beatInterval startOffset t : float)
         (beats : list BeatData.t) : option (list BeatData.t) :=
  if PrimFloat.ltb t duration
  then
    match fuel with
    | O => None
    | S fuel' =>
        let isDownBeat :=
          num_lt (Math_abs (num_rem (Q_of_double t) (Q_of_double beatInterval)))
            (Q_of_double one_hundredth) in
        let beats :=
          if PrimFloat.leb startOffset t
          then
            if isDownBeat then beats ++ [BeatData.mk t 1]
            else
              let side :=
                if (Z.rem (Math_floor (Q_of_double (t / beatInterval)%float)) 2 =? 0)%Z
                then 0%Z else 2%Z in
              beats ++ [BeatData.mk t side]
          else beats in
        demoLoop fuel' duration beatInterval startOffset (t + beatInterval / 2)%float beats
    end
  else Some beats.

(** The constants of [createDemoTrack]: [duration], [60 / bpm] and
    [startOffset]. *)
Definition demo_duration : float := 30%float.
Definition demo_beatInterval : float := (60 / 135)%float.
Definition demo_startOffset : float := 2%float.

(** [createDemoTrack()]: [init()], the 30-second buffer, and the beats of a
    135 bpm track from second 2 on. *)
Definition createDemoTrack (fuel : nat) (s : AudioService.t)
  : option (AudioService.t * list BeatData.t) :=
  match demoLoop fuel demo_duration demo_beatInterval demo_startOffset 0%float [] with
  | Some beats => Some (AudioService.setBuffer (AudioService.mkBuffer 30) s, beats)
  | None => None
  end.

End Doubles.

(** A [BeatData] object as a JavaScript value. *)
Definition beatDataValue (b : BeatData.t) : JSValue :=
  JObject [("time"%string, JNumber (Q_of_double (BeatData.time b)));
           ("lane"%string, JNumber (inject_Z (BeatData.lane b)))].

Section Demo.

Variable JSON_parse : string -> option JSValue.

(** [JSON.stringify(value, null, 2)]. *)
Variable JSON_stringify : list JSValue -> string.

(** [loadDemo], up to its [setTimeout]: the demo track is created and its
    beats are put in the chart box.  The result carries the beats that the
    timeout will start the game with. *)
Definition loadDemo (fuel : nat) (g : Game) : option (Game * list JSValue) :=
  match createDemoTrack fuel (audio g) with
  | None => None
  | Some (a, beats) =>
      let demoBeats := map beatDataValue beats in
      let g := set_audio a g in
      let g := setRawBeatsInput (JSON_stringify demoBeats) g in
      Some (g, demoBeats)
  end.

(** The callback of the timeout of [loadDemo]. *)
Definition loadDemoTimeout (demoBeats : list JSValue) (g : Game) : Game :=
  startGame JSON_parse (Some demoBeats) g.

End Demo.

(** A beat in one of the three lanes, with a number for time, not yet judged. *)
Definition playable_beat (b : Beat) : Prop :=
  pending b /\ timed b /\
  (strict_eq_number (lane b) 0 = true \/ strict_eq_number (lane b) 1 = true \/
   strict_eq_number (lane b) 2 = true).

(** What the tests of the demo loop give of a beat: a lane of the track and
    [startOffset <= time < duration], as the loop compares them. *)
Definition demo_beat (startOffset duration : PrimFloat.float) (b : BeatData.t) : Prop :=
  (BeatData.lane b = 0 \/ BeatData.lane b = 1 \/ BeatData.lane b = 2)%Z /\
  PrimFloat.leb startOffset (BeatData.time b) = true /\
  PrimFloat.ltb (BeatData.time b) duration = true.

(** The beats are one after the other in time. *)
Definition earlier (a b : BeatData.t) : Prop :=
  PrimFloat.ltb (BeatData.time a) (BeatData.time b) = true.

Fixpoint ascending (beats : list BeatData.t) : bool :=
  match beats with
  | [] => true
  | a :: rest =>
      forallb (fun b => PrimFloat.ltb (BeatData.time a) (BeatData.time b)) rest
      && ascending rest
  end.
(** * Properties *)

(** ** Numbers *)

Lemma num_lt_iff (x y : Q) : num_lt x y = true <-> x < y.
Proof.
  unfold num_lt. rewrite negb_true_iff.
  split; intro H.
  - apply Qnot_le_lt. intro L. apply Qle_bool_iff in L. congruence.
  - destruct (Qle_bool y x) eqn:E; [|reflexivity].
    apply Qle_bool_iff in E. exfalso. exact (Qlt_not_le _ _ H E).
Qed.

Lemma num_lt_false_iff (x y : Q) : num_lt x y = false <-> y <= x.
Proof.
  unfold num_lt. rewrite negb_false_iff. apply Qle_bool_iff.
Qed.

Lemma num_gt_iff (x y : Q) : num_gt x y = true <-> y < x.
Proof. unfold num_gt. apply num_lt_iff. Qed.

Lemma Math_min_cap (a b : Q) : 0 <= a -> 0 <= b -> 0 <= Math_min a b <= a.
Proof.
  intros Ha Hb. unfold Math_min.
  destruct (Qle_bool a b) eqn:E.
  - split; [assumption | apply Qle_refl].
  - split; [assumption|].
    destruct (Qlt_le_dec b a) as [L|L]; [apply Qlt_le_weak; exact L|].
    apply Qle_bool_iff in L. congruence.
Qed.

Lemma Math_max_floor (a b : Q) : b <= a + 100 -> a <= Math_max a b <= a + 100.
Proof.
  intros Hb. unfold Math_max.
  destruct (Qle_bool b a) eqn:E.
  - split; [apply Qle_refl | lra].
  - split; [|assumption].
    destruct (Qlt_le_dec a b) as [L|L]; [apply Qlt_le_weak; exact L|].
    apply Qle_bool_iff in L. congruence.
Qed.

Lemma heat_gain_in_range (h add : Q) :
  in_range h -> 0 <= add -> in_range (Math_min 100 (h + add)).
Proof.
  unfold in_range. intros [H0 H1] Ha.
  apply Math_min_cap; lra.
Qed.

Lemma heat_loss_in_range (h d : Q) :
  in_range h -> 0 <= d -> in_range (Math_max 0 (h - d)).
Proof.
  unfold in_range. intros [H0 H1] Hd.
  destruct (Math_max_floor 0 (h - d)) as [A B]; [lra|]. split; lra.
Qed.

(** ** The audio clock *)

Lemma stop_clears_source (s : AudioService.t) :
  AudioService.source (AudioService.stop s) = None.
Proof.
  unfold AudioService.stop. destruct (AudioService.source s) eqn:E; simpl; auto.
Qed.

Lemma idle_clock (s : AudioService.t) :
  AudioService.source s = None -> AudioService.getCurrentTime s = 0.
Proof.
  intros H. unfold AudioService.getCurrentTime. rewrite H.
  destruct (AudioService.ctx s); reflexivity.
Qed.

Lemma no_play_no_source (cs : list AudioCall) (s : AudioService.t) :
  forallb (fun c => negb (is_play c)) cs = true ->
  AudioService.source s = None ->
  AudioService.source (fold_left (fun s c => audioCall c s) cs s) = None.
Proof.
  revert s. induction cs as [|c cs IH]; intros s Hcs Hs; simpl in *; [assumption|].
  apply andb_true_iff in Hcs as [Hc Hcs].
  apply IH; [assumption|].
  destruct c; simpl in *; try discriminate.
  - unfold AudioService.init. destruct (AudioService.ctx s); simpl; assumption.
  - unfold AudioService.setBuffer, AudioService.init.
    destruct (AudioService.ctx s); simpl; assumption.
  - apply stop_clears_source.
  - unfold AudioService.advance. destruct (AudioService.ctx s); simpl; assumption.
Qed.

(** C10: [getCurrentTime()] is exactly 0 whenever the service has no source
    node, which is the case as long as [play] was never called on a new
    service and after every [stop()]; hence a negative time is only ever
    reported while a source node exists whose scheduled start the clock of
    the context has not reached. *)
Theorem getCurrentTime_zero_without_source :
  (forall s, AudioService.source s = None -> AudioService.getCurrentTime s = 0) /\
  (forall cs, forallb (fun c => negb (is_play c)) cs = true ->
     AudioService.getCurrentTime
       (fold_left (fun s c => audioCall c s) cs AudioService.new) = 0) /\
  (forall s, AudioService.getCurrentTime (AudioService.stop s) = 0) /\
  (forall s, AudioService.getCurrentTime s < 0 ->
     exists c node,
       AudioService.ctx s = Some c /\ AudioService.source s = Some node /\
       AudioService.currentTime c < AudioService.startTime s).
Proof.
  split; [exact idle_clock|].
  split; [intros cs H; apply idle_clock, no_play_no_source; [assumption|reflexivity]|].
  split; [intros s; apply idle_clock, stop_clears_source|].
  intros s. unfold AudioService.getCurrentTime.
  destruct (AudioService.ctx s) as [c|], (AudioService.source s) as [node|];
    intros H; try (exfalso; revert H; apply Qlt_irrefl).
  exists c, node. repeat split. lra.
Qed.

Lemma getCurrentTime_zero_without_source_witness :
  AudioService.getCurrentTime
    (fold_left (fun s c => audioCall c s)
       [CallSetBuffer (AudioService.mkBuffer 30); CallAdvance 5; CallStop]
       AudioService.new) = 0
  /\ AudioService.getCurrentTime (AudioService.stop counting_down) = 0
  /\ AudioService.getCurrentTime counting_down < 0
  /\ exists c node,
       AudioService.ctx counting_down = Some c /\
       AudioService.source counting_down = Some node /\
       AudioService.currentTime c < AudioService.startTime counting_down.
Proof.
  destruct getCurrentTime_zero_without_source as (_ & Hnew & Hstop & Hneg).
  split; [apply Hnew; reflexivity|].
  split; [apply Hstop|].
  split; [reflexivity|].
  apply Hneg. reflexivity.
Defined.

(** ** The heat meter *)

Lemma penalty_heat_ok (g : Game) : heat_ok g -> heat_ok (penalty g).
Proof.
  intros [H _]. unfold heat_ok, penalty; simpl.
  split; apply heat_loss_in_range; try assumption; lra.
Qed.

Lemma checkMisses_heat_ok (now : Q) (beats : list Beat) (g : Game) :
  heat_ok g -> heat_ok (snd (checkMisses now beats g)).
Proof.
  revert g. induction beats as [|b rest IH]; intros g H; simpl; [assumption|].
  destruct (overdue now b).
  - specialize (IH (penalty g) (penalty_heat_ok g H)).
    destruct (checkMisses now rest (penalty g)); assumption.
  - specialize (IH g H). destruct (checkMisses now rest g); assumption.
Qed.

Lemma decayed_frame (g : Game) :
  gameState (decayed g) = gameState g /\ beatsRef (decayed g) = beatsRef g /\
  audio (decayed g) = audio g /\ comboRef (decayed g) = comboRef g /\
  scoreRef (decayed g) = scoreRef g /\ alerts (decayed g) = alerts g /\
  heatRef (decayed g) = Math_max 0 (heatRef g - (15 # 100)).
Proof.
  unfold decayed.
  destruct (num_lt _ (1 # 2)); destruct (Z.rem _ 4 =? 0)%Z; simpl; repeat split.
Qed.

(** [loop] by its three phases. *)
Lemma loop_phases (g : Game) :
  loop g =
  if song_over g
  then rerender (gameState g) (set_frame false (setGameState FINISHED (decayed g)))
  else
    set_frame true
      (if num_gt (AudioService.getCurrentTime (audio g)) 0
       then let '(beats, g') :=
              checkMisses (AudioService.getCurrentTime (audio g))
                (beatsRef (decayed g)) (decayed g) in
            set_beatsRef beats g'
       else decayed g).
Proof.
  unfold loop, song_over, decayed.
  destruct (num_lt _ (1 # 2)); destruct (Z.rem _ 4 =? 0)%Z; reflexivity.
Qed.

Lemma decayed_heat_ok (g : Game) : heat_ok g -> heat_ok (decayed g).
Proof.
  intros [Hr Hm].
  assert (D : in_range (Math_max 0 (heatRef g - (15 # 100))))
    by (apply heat_loss_in_range; [assumption | lra]).
  unfold decayed.
  destruct (num_lt _ (1 # 2)); destruct (Z.rem _ 4 =? 0)%Z; split; simpl; assumption.
Qed.

Lemma loop_heat_ok (g : Game) : heat_ok g -> heat_ok (loop g).
Proof.
  intros H. apply decayed_heat_ok in H. rewrite loop_phases.
  destruct (song_over g).
  - unfold rerender, mainLoopEffect; simpl.
    destruct (GameState_eqb (gameState g) FINISHED); exact H.
  - destruct (num_gt _ 0); [|exact H].
    pose proof (checkMisses_heat_ok (AudioService.getCurrentTime (audio g))
                  (beatsRef (decayed g)) (decayed g) H) as C.
    destruct (checkMisses _ _ _) as [beats g']. exact C.
Qed.

Lemma handleLaneInput_heat_ok (laneIndex : Z) (draw : Q) (g : Game) :
  heat_ok g -> heat_ok (fst (handleLaneInput laneIndex draw g)).
Proof.
  intros [Hr Hm]. unfold handleLaneInput.
  destruct (negb (GameState_eqb (gameState g) PLAYING)); [split; assumption|].
  destruct (num_lt _ 0); [split; assumption|].
  destruct (find _ _) as [hb|]; [|split; assumption].
  unfold judge. destruct (nan_lt _ PERFECT_WINDOW); simpl;
    split; simpl; apply heat_gain_in_range; try assumption; lra.
Qed.

Lemma step_heat_ok (e : Event) (g : Game) : heat_ok g -> heat_ok (step e g).
Proof.
  intros H. destruct e; simpl.
  - exact H.
  - destruct (frame g); [apply loop_heat_ok|]; assumption.
  - apply handleLaneInput_heat_ok; assumption.
Qed.

Lemma run_heat_ok (es : list Event) (g : Game) : heat_ok g -> heat_ok (run es g).
Proof.
  revert g. unfold run. induction es as [|e es IH]; intros g H; simpl; [assumption|].
  apply IH, step_heat_ok, H.
Qed.

Lemma rerender_heat_ok (before : GameState) (g : Game) :
  heat_ok g -> heat_ok (rerender before g).
Proof.
  intros H. unfold rerender, mainLoopEffect.
  destruct (GameState_eqb before (gameState g)); [assumption|].
  destruct (GameState_eqb (gameState g) PLAYING); exact H.
Qed.

Lemma zero_in_range : in_range 0.
Proof. unfold in_range; lra. Qed.

Lemma perform_heat_ok (JSON_parse : string -> option JSValue) (a : Action) (g : Game) :
  heat_ok g -> heat_ok (perform JSON_parse a g).
Proof.
  intros H. destruct a; simpl.
  - apply step_heat_ok, H.
  - exact H.
  - exact H.
  - unfold startGame.
    destruct (negb (AudioService.isReady (audio g))); [exact H|].
    destruct (loadChart JSON_parse overrideBeats g); try exact H.
    apply rerender_heat_ok. split; simpl; apply zero_in_range.
  - unfold restart.
    destruct (negb (GameState_eqb (gameState g) FINISHED)); [exact H|].
    apply rerender_heat_ok. split; simpl; apply zero_in_range.
  - unfold mainMenu.
    destruct (negb (GameState_eqb (gameState g) FINISHED)); [exact H|].
    apply rerender_heat_ok. exact H.
Qed.

Lemma session_heat_ok (JSON_parse : string -> option JSValue) (acts : list Action) (g : Game) :
  heat_ok g -> heat_ok (session JSON_parse acts g).
Proof.
  revert g. unfold session. induction acts as [|a acts IH]; intros g H; simpl; [assumption|].
  apply IH, perform_heat_ok, H.
Qed.

Lemma Math_max_nonneg (x : Q) : 0 <= Math_max 0 x.
Proof.
  unfold Math_max. destruct (Qle_bool x 0) eqn:E; [lra|].
  destruct (Qlt_le_dec 0 x) as [L|L]; [lra|].
  apply Qle_bool_iff in L. congruence.
Qed.

(** C9: the heat stays in [0,100].  Every event of play preserves the bound,
    so no run of frames and key presses that starts from heat 0 leaves it, and
    neither does any session from the first mount; the passive decay of a
    frame is 0.15 floored at 0 and the penalty of a miss is 15 floored at 0
    (the gain of a hit is [Math.min(100, .)], in [handleLaneInput]). *)
Theorem heat_always_in_range (JSON_parse : string -> option JSValue) :
  (forall e g, heat_ok g -> heat_ok (step e g)) /\
  (forall es g, heatRef g = 0 -> heat g = 0 -> heat_ok (run es g)) /\
  (forall a acts, heat_ok (session JSON_parse acts (initialGame a))) /\
  (forall g, heatRef (decayed g) = Math_max 0 (heatRef g - (15 # 100))
             /\ 0 <= heatRef (decayed g)) /\
  (forall g, heatRef (penalty g) = Math_max 0 (heatRef g - 15)
             /\ 0 <= heatRef (penalty g)).
Proof.
  split; [exact step_heat_ok|].
  split; [intros es g Hr Hm; apply run_heat_ok; split; [rewrite Hr | rewrite Hm];
          apply zero_in_range|].
  split; [intros a acts; apply session_heat_ok; split; simpl; apply zero_in_range|].
  split; intros g.
  - destruct (decayed_frame g) as (_ & _ & _ & _ & _ & _ & E).
    rewrite E. split; [reflexivity | apply Math_max_nonneg].
  - split; [reflexivity | apply Math_max_nonneg].
Qed.

Lemma heat_always_in_range_witness :
  heat_ok (step (Key 1 0) (playing_at 30 1 [beat 0 1 1] 0 99))
  /\ heat_ok (run [Frame; Advance 2; Frame; Key 1 0]
               (playing_at 30 1 [beat 0 (1 # 2) 1; beat 1 3 1] 0 0)).
Proof.
  destruct (heat_always_in_range (fun _ => None)) as (Hstep & Hrun & _).
  split.
  - apply Hstep. unfold heat_ok, in_range; simpl. lra.
  - apply Hrun; reflexivity.
Defined.

(** ** Judging a lane press *)

Lemma hittable_iff (laneIndex : Z) (currentTime : Q) (b : Beat) :
  hittable laneIndex currentTime b = true <->
  hit b = false /\ missed b = false /\ strict_eq_number (lane b) laneIndex = true /\
  exists d, timing_diff b currentTime = Some d /\ d < HIT_WINDOW.
Proof.
  unfold hittable. rewrite !andb_true_iff, !negb_true_iff.
  unfold nan_lt. split.
  - intros [[[H1 H2] H3] H4]. repeat split; try assumption.
    destruct (timing_diff b currentTime) as [d|]; [|discriminate].
    exists d. split; [reflexivity | apply num_lt_iff; assumption].
  - intros (H1 & H2 & H3 & d & E & L). rewrite E.
    repeat split; try assumption. apply num_lt_iff; assumption.
Qed.

(** C1 (amended): a press judged in PLAYING at a time [>= 0] that finds a
    beat with timing difference [d] always has [d < 0.15] and adds 1 to the
    combo.  If [d < 0.05] it adds 300 to the score and 10 to the heat (capped
    at 100), and is rated PERFECT, or BLOOM when the combo before the press
    exceeds 30 and the random draw exceeds 0.8.  If [0.05 <= d] (so also at
    exactly 0.05) it is rated GREAT and adds 100 and 5 (capped at 100).  A
    beat whose difference is 0.15 or more is not hittable. *)
Theorem press_rating (laneIndex : Z) (draw : Q) (g : Game) (hb : Beat) (d : Q) :
  gameState g = PLAYING ->
  0 <= AudioService.getCurrentTime (audio g) ->
  find (hittable laneIndex (AudioService.getCurrentTime (audio g))) (beatsRef g) = Some hb ->
  timing_diff hb (AudioService.getCurrentTime (audio g)) = Some d ->
  let g' := fst (handleLaneInput laneIndex draw g) in
  let rating := snd (handleLaneInput laneIndex draw g) in
  d < HIT_WINDOW /\
  comboRef g' = (comboRef g + 1)%Z /\
  (d < PERFECT_WINDOW ->
     (rating = Some PERFECT \/ rating = Some BLOOM) /\
     (rating = Some BLOOM <-> (30 < comboRef g)%Z /\ 8 # 10 < draw) /\
     scoreRef g' = (scoreRef g + 300)%Z /\
     heatRef g' = Math_min 100 (heatRef g + 10)) /\
  (PERFECT_WINDOW <= d ->
     rating = Some GREAT /\
     scoreRef g' = (scoreRef g + 100)%Z /\
     heatRef g' = Math_min 100 (heatRef g + 5)) /\
  (forall b d', timing_diff b (AudioService.getCurrentTime (audio g)) = Some d' ->
     HIT_WINDOW <= d' ->
     hittable laneIndex (AudioService.getCurrentTime (audio g)) b = false).
Proof.
  intros Hplay Hnow Hfind Hd. cbv zeta.
  assert (Hw : d < HIT_WINDOW).
  { apply find_some in Hfind as [_ Hh]. apply hittable_iff in Hh.
    destruct Hh as (_ & _ & _ & d0 & E & L). congruence. }
  unfold handleLaneInput. rewrite Hplay. simpl.
  apply num_lt_false_iff in Hnow. rewrite Hnow, Hfind, Hd.
  unfold judge, nan_lt.
  split; [exact Hw|].
  destruct (num_lt d PERFECT_WINDOW) eqn:P; simpl.
  - split; [reflexivity|]. split; [|split].
    + intros _. split; [|split; [|split; reflexivity]].
      * destruct ((30 <? comboRef g)%Z && num_gt draw (8 # 10)); auto.
      * destruct ((30 <? comboRef g)%Z && num_gt draw (8 # 10)) eqn:B.
        -- split; [intros _|reflexivity].
           apply andb_true_iff in B as [B1 B2].
           split; [apply Z.ltb_lt; exact B1 | apply num_gt_iff; exact B2].
        -- split; [discriminate|]. intros [B1 B2].
           apply Z.ltb_lt in B1. apply num_gt_iff in B2.
           rewrite B1, B2 in B. discriminate.
    + intros L. apply num_lt_iff in P. exfalso. exact (Qlt_not_le _ _ P L).
    + intros b d' E L. apply not_true_is_false. intros Hh.
      apply hittable_iff in Hh. destruct Hh as (_ & _ & _ & d0 & E0 & L0).
      rewrite E in E0. injection E0 as <-. exact (Qlt_not_le _ _ L0 L).
  - split; [reflexivity|]. split; [|split].
    + intros L. apply num_lt_false_iff in P. exfalso. exact (Qlt_not_le _ _ L P).
    + intros _. repeat split.
    + intros b d' E L. apply not_true_is_false. intros Hh.
      apply hittable_iff in Hh. destruct Hh as (_ & _ & _ & d0 & E0 & L0).
      rewrite E in E0. injection E0 as <-. exact (Qlt_not_le _ _ L0 L).
Qed.

Lemma press_rating_witness :
  let great := playing_at 30 (17 # 16) [beat 0 1 1] 0 0 in
  let perfect := playing_at 30 (33 # 32) [beat 0 1 1] 0 0 in
  snd (handleLaneInput 1 0 great) = Some GREAT /\
  scoreRef (fst (handleLaneInput 1 0 great)) = 100%Z /\
  comboRef (fst (handleLaneInput 1 0 great)) = 1%Z /\
  hittable 1 (AudioService.getCurrentTime (audio great)) (beat 1 (5 # 4) 1) = false /\
  (snd (handleLaneInput 1 0 perfect) = Some PERFECT \/
   snd (handleLaneInput 1 0 perfect) = Some BLOOM) /\
  scoreRef (fst (handleLaneInput 1 0 perfect)) = 300%Z.
Proof.
  cbv zeta.
  pose proof (press_rating 1 0 (playing_at 30 (17 # 16) [beat 0 1 1] 0 0)
                (beat 0 1 1) (1 # 16)) as H.
  cbv zeta in H.
  destruct H as (_ & Hc & _ & Hg & Hn);
    [reflexivity | vm_compute; discriminate | reflexivity | reflexivity |].
  destruct Hg as (Hr & Hs & _); [vm_compute; discriminate|].
  pose proof (press_rating 1 0 (playing_at 30 (33 # 32) [beat 0 1 1] 0 0)
                (beat 0 1 1) (1 # 32)) as P.
  cbv zeta in P.
  destruct P as (_ & _ & Hp & _);
    [reflexivity | vm_compute; discriminate | reflexivity | reflexivity |].
  destruct Hp as (Pr & _ & Ps & _); [reflexivity|].
  split; [exact Hr|]. split; [exact Hs|]. split; [exact Hc|].
  split; [apply (Hn (beat 1 (5 # 4) 1) (12 # 64)); [reflexivity | vm_compute; discriminate]|].
  split; [exact Pr | exact Ps].
Defined.

(** Counterexample to C1 as stated, where the rating is concerned: with a combo of 31 and
    a draw of 0.9, a press with timing difference 0 is rated BLOOM, not
    PERFECT. *)
Lemma press_rating_counterexample :
  let g := playing_at 30 1 [beat 0 1 1] 31 0 in
  let now := AudioService.getCurrentTime (audio g) in
  gameState g = PLAYING /\ 0 <= now /\
  find (hittable 1 now) (beatsRef g) = Some (beat 0 1 1) /\
  (exists d, timing_diff (beat 0 1 1) now = Some d /\ d < PERFECT_WINDOW) /\
  snd (handleLaneInput 1 (9 # 10) g) = Some BLOOM /\
  snd (handleLaneInput 1 (9 # 10) g) <> Some PERFECT.
Proof.
  cbv zeta. split; [reflexivity|]. split; [vm_compute; discriminate|].
  split; [reflexivity|]. split; [exists 0; split; reflexivity|].
  split; [reflexivity | vm_compute; discriminate].
Qed.

(** ** The main loop *)

(** What the miss check leaves alone in the game state. *)
Lemma checkMisses_frame (now : Q) (beats : list Beat) (g : Game) :
  let g' := snd (checkMisses now beats g) in
  gameState g' = gameState g /\ audio g' = audio g /\ frame g' = frame g /\
  scoreRef g' = scoreRef g /\ beatsRef g' = beatsRef g /\ alerts g' = alerts g.
Proof.
  cbv zeta. revert g. induction beats as [|b rest IH]; intros g; simpl.
  - repeat split.
  - destruct (overdue now b).
    + specialize (IH (penalty g)). destruct (checkMisses now rest (penalty g)). exact IH.
    + specialize (IH g). destruct (checkMisses now rest g). exact IH.
Qed.

Lemma song_over_iff (g : Game) :
  song_over g = true <->
  AudioService.getDuration (audio g) + 2 < AudioService.getCurrentTime (audio g)
  /\ 0 < AudioService.getDuration (audio g).
Proof.
  unfold song_over. rewrite andb_true_iff, !num_gt_iff. reflexivity.
Qed.

Lemma loop_over (g : Game) :
  gameState g = PLAYING -> song_over g = true ->
  gameState (loop g) = FINISHED /\ frame (loop g) = false /\
  AudioService.source (audio (loop g)) = None.
Proof.
  intros Hp Ho. rewrite loop_phases, Ho, Hp.
  unfold rerender, mainLoopEffect; simpl.
  repeat split. apply stop_clears_source.
Qed.

Lemma loop_goes_on (g : Game) :
  song_over g = false ->
  gameState (loop g) = gameState g /\ frame (loop g) = true /\
  audio (loop g) = audio g.
Proof.
  intros Ho. rewrite loop_phases, Ho.
  destruct (decayed_frame g) as (Eg & _ & Ea & _).
  destruct (num_gt _ 0); simpl; [|auto].
  pose proof (checkMisses_frame (AudioService.getCurrentTime (audio g))
                (beatsRef (decayed g)) (decayed g)) as C. cbv zeta in C.
  destruct (checkMisses _ _ _) as [beats g']. simpl in *.
  destruct C as (C1 & C2 & _). rewrite C1, C2. auto.
Qed.

(** Once FINISHED with no frame requested, play events change nothing but
    the clock of the audio context. *)
Lemma step_when_finished (e : Event) (g : Game) :
  gameState g = FINISHED -> frame g = false ->
  gameState (step e g) = FINISHED /\ frame (step e g) = false /\
  beatsRef (step e g) = beatsRef g /\ scoreRef (step e g) = scoreRef g.
Proof.
  intros Hf Hr. destruct e; simpl.
  - auto.
  - rewrite Hr. auto.
  - unfold handleLaneInput. rewrite Hf. simpl. auto.
Qed.

Lemma run_when_finished (es : list Event) (g : Game) :
  gameState g = FINISHED -> frame g = false ->
  gameState (run es g) = FINISHED /\ frame (run es g) = false /\
  beatsRef (run es g) = beatsRef g /\ scoreRef (run es g) = scoreRef g.
Proof.
  revert g. unfold run. induction es as [|e es IH]; intros g Hf Hr; simpl; [auto|].
  destruct (step_when_finished e g Hf Hr) as (A & B & C & D).
  destruct (IH (step e g) A B) as (A' & B' & C' & D').
  rewrite C', D'. auto.
Qed.

(** C2: a run of [loop] in PLAYING moves the game to FINISHED exactly when
    the clock is past the duration plus 2 and the duration is positive (the
    duration being the one the audio service reports); otherwise the game
    stays in PLAYING with the next frame requested.  After the transition no
    frame is requested and the audio is stopped, so whatever events follow,
    the game stays FINISHED: a frame event runs nothing and the transition
    cannot fire again. *)
Theorem finish_transition (g : Game) :
  gameState g = PLAYING ->
  let now := AudioService.getCurrentTime (audio g) in
  let chartDuration := AudioService.getDuration (audio g) in
  (gameState (loop g) = FINISHED <-> chartDuration + 2 < now /\ 0 < chartDuration) /\
  (gameState (loop g) = FINISHED \/
   gameState (loop g) = PLAYING /\ frame (loop g) = true) /\
  (gameState (loop g) = FINISHED ->
     frame (loop g) = false /\
     AudioService.source (audio (loop g)) = None /\
     forall es,
       gameState (run es (loop g)) = FINISHED /\
       frame (run es (loop g)) = false /\
       step Frame (run es (loop g)) = run es (loop g)).
Proof.
  intros Hp. cbv zeta.
  destruct (song_over g) eqn:Ho.
  - destruct (loop_over g Hp Ho) as (A & B & C).
    split; [split; [intros _; apply song_over_iff; exact Ho | intros _; exact A]|].
    split; [left; exact A|].
    intros _. split; [exact B|]. split; [exact C|].
    intros es. destruct (run_when_finished es (loop g) A B) as (A' & B' & _).
    split; [exact A'|]. split; [exact B'|]. simpl. rewrite B'. reflexivity.
  - destruct (loop_goes_on g Ho) as (A & B & _). rewrite Hp in A.
    split; [split|].
    + intros F. rewrite A in F. discriminate.
    + intros H. apply song_over_iff in H. congruence.
    + split; [right; auto|]. intros F. rewrite A in F. discriminate.
Qed.

Lemma finish_transition_witness :
  let g := playing_at 30 (325 # 10) [beat 0 1 1] 0 0 in
  gameState (loop g) = FINISHED /\
  gameState (run [Advance 1; Frame; Key 1 0; Frame] (loop g)) = FINISHED /\
  gameState (loop (playing_at 30 32 [beat 0 1 1] 0 0)) = PLAYING.
Proof.
  cbv zeta.
  destruct (finish_transition (playing_at 30 (325 # 10) [beat 0 1 1] 0 0))
    as (Hiff & _ & Hafter); [reflexivity|].
  assert (F : gameState (loop (playing_at 30 (325 # 10) [beat 0 1 1] 0 0)) = FINISHED)
    by (apply Hiff; split; reflexivity).
  split; [exact F|].
  split; [apply (Hafter F)|].
  destruct (finish_transition (playing_at 30 32 [beat 0 1 1] 0 0))
    as (_ & [H|[H _]] & _); [reflexivity | | exact H].
  vm_compute in H. discriminate H.
Defined.

(** ** The miss check *)

Lemma overdue_iff (now : Q) (b : Beat) :
  overdue now b = true <->
  hit b = false /\ missed b = false /\
  exists t, ToNumber (time b) = Some t /\ t + HIT_WINDOW < now.
Proof.
  unfold overdue, past_window. rewrite !andb_true_iff, !negb_true_iff. split.
  - intros [[H1 H2] H3]. repeat split; try assumption.
    destruct (ToNumber (time b)) as [t|]; [|discriminate].
    exists t. split; [reflexivity | apply num_gt_iff; assumption].
  - intros (H1 & H2 & t & E & L). rewrite E.
    repeat split; try assumption. apply num_gt_iff; assumption.
Qed.

Lemma checkMisses_spec (now : Q) (beats : list Beat) (g : Game) :
  fst (checkMisses now beats g) = map (mark_overdue now) beats /\
  comboRef (snd (checkMisses now beats g)) =
    (if existsb (overdue now) beats then 0%Z else comboRef g) /\
  heatRef (snd (checkMisses now beats g)) =
    Nat.iter (List.length (filter (overdue now) beats)) cool_down (heatRef g).
Proof.
  revert g. induction beats as [|b rest IH]; intros g; simpl.
  - repeat split.
  - unfold mark_overdue at 1. destruct (overdue now b); simpl.
    + destruct (IH (penalty g)) as (A & B & C).
      destruct (checkMisses now rest (penalty g)) as [rest' g']. simpl in *.
      split; [f_equal; exact A|]. split.
      * rewrite B. destruct (existsb (overdue now) rest); reflexivity.
      * rewrite C. change (Math_max 0 (heatRef g - 15)) with (cool_down (heatRef g)).
        apply Nat.iter_swap.
    + destruct (IH g) as (A & B & C).
      destruct (checkMisses now rest g) as [rest' g']. simpl in *.
      split; [f_equal; exact A|]. split; assumption.
Qed.




(** ** The flags of a beat *)

Lemma evolves_refl (b : Beat) : evolves b b.
Proof. unfold evolves. auto. Qed.

Lemma evolves_trans (a b c : Beat) : evolves a b -> evolves b c -> evolves a c.
Proof.
  unfold evolves. intros (I1 & T1 & L1 & K1 & X1) (I2 & T2 & L2 & K2 & X2).
  repeat split; try congruence.
  - intros H. specialize (K1 H). subst b. auto.
  - auto.
Qed.

Lemma Forall2_evolves_refl (l : list Beat) : Forall2 evolves l l.
Proof. induction l; constructor; auto using evolves_refl. Qed.

Lemma Forall2_evolves_trans (l1 l2 l3 : list Beat) :
  Forall2 evolves l1 l2 -> Forall2 evolves l2 l3 -> Forall2 evolves l1 l3.
Proof.
  intros H. revert l3. induction H; intros l3 H3; inversion H3; subst; constructor.
  - eapply evolves_trans; eassumption.
  - auto.
Qed.

Lemma set_hit_evolves (b : Beat) : pending b -> evolves b (set_hit true b).
Proof.
  intros [H M]. unfold evolves; simpl. repeat split.
  - intros [E|E]; congruence.
  - intros _. rewrite M. reflexivity.
Qed.

Lemma set_missed_evolves (b : Beat) : pending b -> evolves b (set_missed true b).
Proof.
  intros [H M]. unfold evolves; simpl. repeat split.
  - intros [E|E]; congruence.
  - intros _. rewrite H. reflexivity.
Qed.

Lemma hittable_pending (laneIndex : Z) (t : Q) (b : Beat) :
  hittable laneIndex t b = true -> pending b.
Proof. intros H. apply hittable_iff in H. split; apply H. Qed.

Lemma overdue_pending (now : Q) (b : Beat) : overdue now b = true -> pending b.
Proof. intros H. apply overdue_iff in H. split; apply H. Qed.

Lemma hit_first_evolves (laneIndex : Z) (t : Q) (l : list Beat) :
  Forall2 evolves l (hit_first (hittable laneIndex t) l).
Proof.
  induction l as [|b rest IH]; simpl; [constructor|].
  destruct (hittable laneIndex t b) eqn:E.
  - constructor; [|apply Forall2_evolves_refl].
    apply set_hit_evolves. eapply hittable_pending; eassumption.
  - constructor; [apply evolves_refl | exact IH].
Qed.

Lemma mark_overdue_evolves (now : Q) (l : list Beat) :
  Forall2 evolves l (map (mark_overdue now) l).
Proof.
  induction l as [|b rest IH]; simpl; constructor; [|exact IH].
  unfold mark_overdue. destruct (overdue now b) eqn:E.
  - apply set_missed_evolves. eapply overdue_pending; eassumption.
  - apply evolves_refl.
Qed.

Lemma loop_beats (g : Game) :
  beatsRef (loop g) = beatsRef g \/
  beatsRef (loop g) = map (mark_overdue (AudioService.getCurrentTime (audio g))) (beatsRef g).
Proof.
  rewrite loop_phases.
  destruct (decayed_frame g) as (_ & Eb & _).
  destruct (song_over g).
  - left. unfold rerender, mainLoopEffect; simpl.
    destruct (GameState_eqb (gameState g) FINISHED); simpl; exact Eb.
  - destruct (num_gt _ 0); [right | left; exact Eb].
    destruct (checkMisses_spec (AudioService.getCurrentTime (audio g))
                (beatsRef (decayed g)) (decayed g)) as (A & _).
    destruct (checkMisses _ _ _) as [beats g']. simpl in *. rewrite Eb in A. exact A.
Qed.

Lemma handleLaneInput_beats (laneIndex : Z) (draw : Q) (g : Game) :
  beatsRef (fst (handleLaneInput laneIndex draw g)) = beatsRef g \/
  beatsRef (fst (handleLaneInput laneIndex draw g)) =
    hit_first (hittable laneIndex (AudioService.getCurrentTime (audio g))) (beatsRef g).
Proof.
  unfold handleLaneInput.
  destruct (negb (GameState_eqb (gameState g) PLAYING)); [left; reflexivity|].
  destruct (num_lt _ 0); [left; reflexivity|].
  destruct (find _ _); [|left; reflexivity].
  destruct (judge _ _ _) as [[r s] h]. right. reflexivity.
Qed.

Lemma step_evolves (e : Event) (g : Game) :
  Forall2 evolves (beatsRef g) (beatsRef (step e g)).
Proof.
  destruct e; simpl.
  - apply Forall2_evolves_refl.
  - destruct (frame g); [|apply Forall2_evolves_refl].
    destruct (loop_beats g) as [E|E]; rewrite E;
      [apply Forall2_evolves_refl | apply mark_overdue_evolves].
  - destruct (handleLaneInput_beats laneIndex draw g) as [E|E]; rewrite E;
      [apply Forall2_evolves_refl | apply hit_first_evolves].
Qed.

Lemma run_evolves (es : list Event) (g : Game) :
  Forall2 evolves (beatsRef g) (beatsRef (run es g)).
Proof.
  revert g. unfold run. induction es as [|e es IH]; intros g; simpl.
  - apply Forall2_evolves_refl.
  - eapply Forall2_evolves_trans; [apply step_evolves | apply IH].
Qed.

Lemma evolves_exclusive (l l' : list Beat) :
  Forall2 evolves l l' -> Forall exclusive l -> Forall exclusive l'.
Proof.
  induction 1 as [|b b' l l' Hb _ IH]; intros HF; [constructor|].
  inversion HF; subst. constructor; [|auto].
  destruct Hb as (_ & _ & _ & _ & X). apply X. assumption.
Qed.

(** ** Loading a chart *)

Lemma rerender_keeps (before : GameState) (g : Game) :
  gameState (rerender before g) = gameState g /\
  beatsRef (rerender before g) = beatsRef g /\
  scoreRef (rerender before g) = scoreRef g /\
  comboRef (rerender before g) = comboRef g /\
  heatRef (rerender before g) = heatRef g /\
  alerts (rerender before g) = alerts g.
Proof.
  unfold rerender, mainLoopEffect.
  destruct (GameState_eqb before (gameState g)); [repeat split|].
  destruct (GameState_eqb (gameState g) PLAYING); repeat split.
Qed.

Lemma startGame_cases (JSON_parse : string -> option JSValue)
      (overrideBeats : option (list JSValue)) (g : Game) :
  (exists a, startGame JSON_parse overrideBeats g = alert a g /\
             (AudioService.isReady (audio g) = false \/
              loadChart JSON_parse overrideBeats g = EarlyReturn a \/
              loadChart JSON_parse overrideBeats g = Thrown))
  \/
  (exists parsedBeats,
     AudioService.isReady (audio g) = true /\
     loadChart JSON_parse overrideBeats g = Chart parsedBeats /\
     gameState (startGame JSON_parse overrideBeats g) = PLAYING /\
     beatsRef (startGame JSON_parse overrideBeats g) = parsedBeats /\
     scoreRef (startGame JSON_parse overrideBeats g) = 0%Z /\
     comboRef (startGame JSON_parse overrideBeats g) = 0%Z /\
     heatRef (startGame JSON_parse overrideBeats g) = 0).
Proof.
  unfold startGame.
  destruct (AudioService.isReady (audio g)) eqn:R; simpl; [|left; eauto].
  destruct (loadChart JSON_parse overrideBeats g) as [c|a|] eqn:L.
  - right. exists c.
    through_rerender rerender_keeps. destruct Hkeeps as (A & B & C & D & E & _).
    rewrite A, B, C, D, E. simpl. repeat split.
  - left. eauto.
  - left. eauto.
Qed.

Lemma parseBeat_pending (i : nat) (v : JSValue) (b : Beat) :
  parseBeat i v = Some b -> pending b /\ id b = i.
Proof.
  unfold parseBeat. destruct (typeof_number v).
  - intros [= <-]. repeat split.
  - destruct (get_prop v "time"); [|discriminate].
    destruct (get_prop v "lane"); [|discriminate].
    intros [= <-]. repeat split.
Qed.

Lemma parseBeats_pending (items : list JSValue) (i : nat) (l : list Beat) :
  parseBeats i items = Some l -> Forall pending l.
Proof.
  revert i l. induction items as [|v rest IH]; intros i l; simpl.
  - intros [= <-]. constructor.
  - destruct (parseBeat i v) as [b|] eqn:E; [|discriminate].
    destruct (parseBeats (S i) rest) as [bs|] eqn:R; [|discriminate].
    intros [= <-]. constructor; [eapply parseBeat_pending; eassumption | eauto].
Qed.

Lemma sort_insert_perm (x : Beat) (l : list Beat) :
  Permutation (x :: l) (sort_insert x l).
Proof.
  induction l as [|y rest IH]; simpl; [reflexivity|].
  destruct (sorts_after x y); [|reflexivity].
  rewrite perm_swap. constructor. exact IH.
Qed.

Lemma Array_sort_perm (l : list Beat) : Permutation l (Array_sort l).
Proof.
  induction l as [|x rest IH]; simpl; [constructor|].
  rewrite <- sort_insert_perm. constructor. exact IH.
Qed.

Lemma loadChart_items (JSON_parse : string -> option JSValue)
      (overrideBeats : option (list JSValue)) (g : Game) (c : list Beat) :
  loadChart JSON_parse overrideBeats g = Chart c ->
  exists items parsed,
    match overrideBeats with
    | Some l => items = l
    | None => rawBeatsInput g <> EmptyString /\
              JSON_parse (rawBeatsInput g) = Some (JArray items)
    end /\
    parseBeats 0 items = Some parsed /\ c = Array_sort parsed.
Proof.
  unfold loadChart. destruct overrideBeats as [l|].
  - destruct (parseBeats 0 l) as [parsed|] eqn:E; [|discriminate].
    intros [= <-]. exists l, parsed. auto.
  - destruct (String.eqb (rawBeatsInput g) EmptyString) eqn:N; [discriminate|].
    destruct (JSON_parse (rawBeatsInput g)) as [v|] eqn:P; [|discriminate].
    destruct v; try discriminate.
    destruct (parseBeats 0 items) as [parsed|] eqn:E; [|discriminate].
    intros [= <-]. exists items, parsed.
    apply String.eqb_neq in N. auto.
Qed.

Lemma loadChart_pending (JSON_parse : string -> option JSValue)
      (overrideBeats : option (list JSValue)) (g : Game) (c : list Beat) :
  loadChart JSON_parse overrideBeats g = Chart c -> Forall pending c.
Proof.
  intros H. apply loadChart_items in H as (items & parsed & _ & P & ->).
  eapply Permutation_Forall; [apply Array_sort_perm|].
  eapply parseBeats_pending; eassumption.
Qed.

Lemma pending_exclusive (l : list Beat) : Forall pending l -> Forall exclusive l.
Proof.
  apply Forall_impl. intros b [H _]. unfold exclusive. rewrite H. reflexivity.
Qed.

Lemma perform_exclusive (JSON_parse : string -> option JSValue) (a : Action) (g : Game) :
  Forall exclusive (beatsRef g) -> Forall exclusive (beatsRef (perform JSON_parse a g)).
Proof.
  intros H. destruct a; simpl; try exact H.
  - eapply evolves_exclusive; [apply step_evolves | exact H].
  - destruct (startGame_cases JSON_parse overrideBeats g)
      as [(a & -> & _) | (c & _ & L & _ & -> & _)]; [exact H|].
    apply pending_exclusive. eapply loadChart_pending; eassumption.
  - unfold restart. destruct (negb (GameState_eqb (gameState g) FINISHED)); [exact H|].
    through_rerender rerender_keeps. destruct Hkeeps as (_ & B & _).
    rewrite B. simpl. apply Forall_map, Forall_forall. intros b _. reflexivity.
  - unfold mainMenu. destruct (negb (GameState_eqb (gameState g) FINISHED)); [exact H|].
    through_rerender rerender_keeps. destruct Hkeeps as (_ & B & _).
    rewrite B. exact H.
Qed.

Lemma session_exclusive (JSON_parse : string -> option JSValue) (acts : list Action) (g : Game) :
  Forall exclusive (beatsRef g) -> Forall exclusive (beatsRef (session JSON_parse acts g)).
Proof.
  revert g. unfold session. induction acts as [|a acts IH]; intros g H; simpl; [exact H|].
  apply IH, perform_exclusive, H.
Qed.

(** C4: across any run of frames and lane presses each beat keeps its
    identity, time and lane; a beat that is hit or missed is not changed at
    all, and a beat never gets both flags (so, from the first mount, no beat
    of any session ever has both).  A hit or missed beat satisfies neither the
    predicate of the judgment nor the condition of the miss check.  Only
    loading a chart and the replay button produce beats with the flags
    cleared. *)
Theorem flags_terminal (JSON_parse : string -> option JSValue) :
  (forall es g, Forall2 evolves (beatsRef g) (beatsRef (run es g))) /\
  (forall es g, Forall exclusive (beatsRef g) -> Forall exclusive (beatsRef (run es g))) /\
  (forall a acts, Forall exclusive (beatsRef (session JSON_parse acts (initialGame a)))) /\
  (forall b, hit b = true \/ missed b = true ->
     forall laneIndex t, hittable laneIndex t b = false /\ overdue t b = false
                         /\ mark_overdue t b = b) /\
  (forall overrideBeats g c,
     loadChart JSON_parse overrideBeats g = Chart c -> Forall pending c) /\
  (forall g, gameState g = FINISHED -> Forall pending (beatsRef (restart g))).
Proof.
  split; [exact run_evolves|].
  split; [intros es g; apply evolves_exclusive, run_evolves|].
  split; [intros a acts; apply session_exclusive; constructor|].
  split; [|split].
  - intros b Hb laneIndex t.
    assert (O : overdue t b = false).
    { apply not_true_is_false. intros H. apply overdue_pending in H.
      destruct H, Hb; congruence. }
    split; [|split; [exact O | unfold mark_overdue; rewrite O; reflexivity]].
    apply not_true_is_false. intros H. apply hittable_pending in H.
    destruct H, Hb; congruence.
  - intros ob g c. apply loadChart_pending.
  - intros g Hf. unfold restart. rewrite Hf.
    change (negb (GameState_eqb FINISHED FINISHED)) with false. cbv iota.
    through_rerender rerender_keeps. destruct Hkeeps as (_ & B & _).
    rewrite B. simpl. apply Forall_map, Forall_forall. intros b _. split; reflexivity.
Qed.

Lemma flags_terminal_witness :
  let g := playing_at 30 1 [set_hit true (beat 0 1 1); beat 1 (1 # 2) 1] 0 0 in
  Forall exclusive (beatsRef (run [Key 1 0; Frame; Advance 3; Frame] g))
  /\ hittable 1 1 (set_hit true (beat 0 1 1)) = false
  /\ Forall pending (beatsRef (restart (loop (playing_at 1 4 [set_hit true (beat 0 1 1)] 0 0)))).
Proof.
  cbv zeta.
  destruct (flags_terminal (fun _ => None)) as (_ & Hex & _ & Hterm & _ & Hre).
  split; [apply Hex; repeat constructor|].
  split; [apply Hterm; left; reflexivity|].
  apply Hre. reflexivity.
Defined.

(** ** The order of the chart *)

Lemma sorts_after_iff (a b : Beat) :
  sorts_after a b = true <->
  exists x y, ToNumber (time a) = Some x /\ ToNumber (time b) = Some y /\ y < x.
Proof.
  unfold sorts_after, compareFn.
  destruct (ToNumber (time a)) as [x|], (ToNumber (time b)) as [y|];
    try (split; [discriminate | intros (x' & y' & E1 & E2 & _); discriminate]).
  rewrite num_gt_iff. split.
  - intros H. exists x, y. repeat split. lra.
  - intros (x' & y' & [= <-] & [= <-] & H). lra.
Qed.

Lemma time_le_trans (a b c : Beat) : time_le a b -> time_le b c -> time_le a c.
Proof.
  unfold time_le.
  destruct (ToNumber (time a)), (ToNumber (time b)), (ToNumber (time c));
    try tauto. apply Qle_trans.
Qed.


Lemma sort_insert_sorted (x : Beat) (l : list Beat) :
  timed x -> Forall timed l ->
  StronglySorted time_le l -> StronglySorted time_le (sort_insert x l).
Proof.
  intros Hx Hl Hs. induction Hs as [|y rest Hs IH Hy]; simpl.
  - constructor; constructor.
  - inversion Hl as [|? ? Ty Tr]; subst.
    destruct (sorts_after x y) eqn:E.
    + constructor; [apply IH; assumption|].
      eapply Permutation_Forall; [apply sort_insert_perm|].
      constructor; [|assumption].
      apply sorts_after_iff in E as (a & b & Ea & Eb & L).
      unfold time_le. rewrite Ea, Eb. apply Qlt_le_weak, L.
    + assert (L : time_le x y).
      { destruct Hx as [a Ea], Ty as [b Eb]. unfold time_le. rewrite Ea, Eb.
        destruct (Qlt_le_dec b a) as [C|C]; [|exact C].
        assert (S : sorts_after x y = true)
          by (apply sorts_after_iff; exists a, b; auto).
        congruence. }
      constructor; [constructor; assumption|].
      constructor; [exact L|].
      eapply Forall_impl; [|exact Hy]. intros z. apply time_le_trans, L.
Qed.

Lemma Array_sort_sorted (l : list Beat) :
  Forall timed l -> StronglySorted time_le (Array_sort l).
Proof.
  induction 1 as [|x rest Hx Hr IH]; simpl; [constructor|].
  apply sort_insert_sorted; [assumption | | assumption].
  eapply Permutation_Forall; [apply Array_sort_perm | assumption].
Qed.



Lemma evolves_sorted (l l' : list Beat) :
  Forall2 evolves l l' -> StronglySorted time_le l -> StronglySorted time_le l'.
Proof.
  assert (K : forall a a' b b', evolves a a' -> evolves b b' -> time_le a b -> time_le a' b').
  { intros a a' b b' (_ & Ta & _) (_ & Tb & _). unfold time_le. rewrite Ta, Tb. auto. }
  induction 1 as [|b b' l l' Hb Hl IH]; intros Hs; [constructor|].
  inversion Hs as [|? ? Hs' Hall]; subst.
  constructor; [auto|].
  clear IH Hs Hs'. induction Hl as [|c c' l l' Hc _ IH]; [constructor|].
  inversion Hall; subst. constructor; [eapply K; eassumption | auto].
Qed.

Lemma find_first (p : Beat -> bool) (l : list Beat) :
  existsb p l = true ->
  exists before hb after,
    l = before ++ hb :: after /\
    Forall (fun b => p b = false) before /\
    p hb = true /\
    find p l = Some hb /\
    hit_first p l = before ++ set_hit true hb :: after.
Proof.
  induction l as [|b rest IH]; simpl; [discriminate|].
  destruct (p b) eqn:E.
  - intros _. exists [], b, rest. simpl. auto.
  - simpl. intros H. destruct (IH H) as (before & hb & after & -> & F & P & Fd & Hf).
    exists (b :: before), hb, after. simpl. rewrite Hf. auto.
Qed.






(** ** Validation of the chart *)

Lemma parseBeat_None (i : nat) (v : JSValue) :
  parseBeat i v = None <-> v = JNull \/ v = JUndefined.
Proof.
  destruct v; simpl; split; intros H; try discriminate; auto;
    destruct H; discriminate.
Qed.

Lemma parseBeats_Some (items : list JSValue) (i : nat) :
  (exists parsed, parseBeats i items = Some parsed) <->
  Forall (fun e => e <> JNull /\ e <> JUndefined) items.
Proof.
  revert i. induction items as [|v rest IH]; intros i; simpl.
  - split; [constructor | eauto].
  - split.
    + intros [parsed H].
      destruct (parseBeat i v) as [b|] eqn:E; [|discriminate].
      destruct (parseBeats (S i) rest) as [bs|] eqn:R; [|discriminate].
      constructor; [|apply (IH (S i)); eauto].
      split; intros ->; discriminate.
    + intros H. inversion H as [|? ? [N U] Hr]; subst.
      destruct (parseBeat i v) as [b|] eqn:E;
        [|apply parseBeat_None in E; tauto].
      apply (IH (S i)) in Hr as [bs ->]. eauto.
Qed.

Lemma parseBeats_nth (items : list JSValue) (i0 i : nat) (parsed : list Beat) (entry : JSValue) :
  parseBeats i0 items = Some parsed ->
  nth_error items i = Some entry ->
  exists b, nth_error parsed i = Some b /\ parseBeat (i0 + i) entry = Some b.
Proof.
  revert i0 i parsed. induction items as [|v rest IH]; intros i0 i parsed; simpl.
  - destruct i; discriminate.
  - destruct (parseBeat i0 v) as [b|] eqn:E; [|discriminate].
    destruct (parseBeats (S i0) rest) as [bs|] eqn:R; [|discriminate].
    intros [= <-]. destruct i as [|i]; simpl.
    + intros [= <-]. exists b. rewrite Nat.add_0_r. auto.
    + intros H. destruct (IH (S i0) i bs R H) as (b' & A & B).
      exists b'. rewrite Nat.add_succ_r. auto.
Qed.

Lemma parseBeats_length (items : list JSValue) (i0 : nat) (parsed : list Beat) :
  parseBeats i0 items = Some parsed -> List.length parsed = List.length items.
Proof.
  revert i0 parsed. induction items as [|v rest IH]; intros i0 parsed; simpl.
  - intros [= <-]. reflexivity.
  - destruct (parseBeat i0 v) as [b|]; [|discriminate].
    destruct (parseBeats (S i0) rest) as [bs|] eqn:R; [|discriminate].
    intros [= <-]. simpl. f_equal. eauto.
Qed.

Lemma parseBeat_lane (i : nat) (entry : JSValue) (b : Beat) :
  parseBeat i entry = Some b ->
  id b = i /\
  (forall q, entry_lane entry = JNumber q -> lane b = JNumber q) /\
  (entry_lane entry = JUndefined \/ entry_lane entry = JNull -> lane b = JNumber 1).
Proof.
  destruct entry; simpl; try discriminate; intros [= <-]; simpl;
    (split; [reflexivity|]);
    try (split; [intros ?; discriminate | intros _; reflexivity]).
  split; [intros ? E; rewrite E; reflexivity | intros [E | E]; rewrite E; reflexivity].
Qed.

Lemma loaded_lanes (JSON_parse : string -> option JSValue)
      (overrideBeats : option (list JSValue)) (g : Game) (chart : list Beat) :
  loadChart JSON_parse overrideBeats g = Chart chart ->
  exists items,
    chart_array JSON_parse overrideBeats g items /\
    List.length chart = List.length items /\
    forall i entry, nth_error items i = Some entry ->
      exists b, In b chart /\ id b = i /\
        (forall q, entry_lane entry = JNumber q -> lane b = JNumber q) /\
        (entry_lane entry = JUndefined \/ entry_lane entry = JNull -> lane b = JNumber 1).
Proof.
  intros H. destruct (loadChart_items _ _ _ _ H) as (items & parsed & S & P & ->).
  exists items. split; [exact S|]. split.
  - rewrite <- (Permutation_length (Array_sort_perm parsed)).
    eapply parseBeats_length; eassumption.
  - intros i entry Hn.
    destruct (parseBeats_nth _ _ _ _ _ P Hn) as (b & Hb & Hp).
    exists b. split.
    + eapply Permutation_in; [apply Array_sort_perm|]. eapply nth_error_In; eassumption.
    + apply parseBeat_lane in Hp. exact Hp.
Qed.

Lemma loadChart_Chart_iff (JSON_parse : string -> option JSValue)
      (overrideBeats : option (list JSValue)) (g : Game) :
  (exists chart, loadChart JSON_parse overrideBeats g = Chart chart) <->
  exists items, chart_array JSON_parse overrideBeats g items /\
                Forall (fun e => e <> JNull /\ e <> JUndefined) items.
Proof.
  split.
  - intros [chart H]. destruct (loadChart_items _ _ _ _ H) as (items & parsed & S & P & _).
    exists items. split; [exact S|]. apply (parseBeats_Some items 0). eauto.
  - intros (items & S & F). apply (parseBeats_Some items 0) in F as [parsed P].
    unfold loadChart, chart_array in *. destruct overrideBeats as [l|].
    + subst l. rewrite P. eauto.
    + destruct S as [N E]. apply String.eqb_neq in N. rewrite N, E, P. eauto.
Qed.

(** C6 (amended): loading never rejects an entry on account of its lane (the
    only entries that make loading fail are [null] ones), and every entry of a
    loaded chart is present as the beat with its index as id.  The lane of
    that beat is the center lane 1 when the entry has no lane (a bare number,
    or an object without the property) or a [null] one; a numeric lane is kept
    as it is, whatever its value: nothing is clamped. *)
Theorem lane_defaulted_not_clamped (JSON_parse : string -> option JSValue)
        (overrideBeats : option (list JSValue)) (g : Game) (chart : list Beat) :
  loadChart JSON_parse overrideBeats g = Chart chart ->
  (forall i entry, parseBeat i entry = None <-> entry = JNull \/ entry = JUndefined) /\
  exists items,
    chart_array JSON_parse overrideBeats g items /\
    List.length chart = List.length items /\
    forall i entry, nth_error items i = Some entry ->
      exists b, In b chart /\ id b = i /\
        (forall q, entry_lane entry = JNumber q -> lane b = JNumber q) /\
        (entry_lane entry = JUndefined \/ entry_lane entry = JNull -> lane b = JNumber 1).
Proof.
  intros H. split; [exact parseBeat_None | exact (loaded_lanes _ _ _ _ H)].
Qed.

Lemma lane_defaulted_not_clamped_witness :
  exists items,
    chart_array JSON_parse_examples None (setup_with "[2, 1, 1.1]") items /\
    forall i entry, nth_error items i = Some entry ->
      exists b,
        In b [mkBeat 1 (JNumber 1) (JNumber 1) false false;
              mkBeat 2 (JNumber (11 # 10)) (JNumber 1) false false;
              mkBeat 0 (JNumber 2) (JNumber 1) false false] /\
        id b = i /\
        (entry_lane entry = JUndefined \/ entry_lane entry = JNull -> lane b = JNumber 1).
Proof.
  destruct (lane_defaulted_not_clamped JSON_parse_examples None
              (setup_with "[2, 1, 1.1]")
              [mkBeat 1 (JNumber 1) (JNumber 1) false false;
               mkBeat 2 (JNumber (11 # 10)) (JNumber 1) false false;
               mkBeat 0 (JNumber 2) (JNumber 1) false false])
    as (_ & items & S & _ & H); [reflexivity|].
  exists items. split; [exact S|].
  intros i entry Hn. destruct (H i entry Hn) as (b & A & B & _ & D). eauto.
Defined.

(** Counterexample to C6 as stated: the chart with the one entry [{time: 1, lane: 5}]
    loads, the game starts, and the beat keeps lane 5, which is none of 0, 1
    and 2. *)
Lemma lane_defaulted_not_clamped_counterexample :
  let g := startGame JSON_parse_examples None (setup_with lane5_text) in
  JSON_parse_examples lane5_text
    = Some (JArray [JObject [("time"%string, JNumber 1); ("lane"%string, JNumber 5)]]) /\
  gameState g = PLAYING /\
  beatsRef g = [mkBeat 0 (JNumber 1) (JNumber 5) false false] /\
  forall laneIndex, (0 <= laneIndex <= 2)%Z ->
    Forall (fun b => strict_eq_number (lane b) laneIndex = false) (beatsRef g).
Proof.
  cbv zeta. split; [reflexivity|]. split; [reflexivity|]. split; [reflexivity|].
  intros laneIndex H.
  assert (C : laneIndex = 0%Z \/ laneIndex = 1%Z \/ laneIndex = 2%Z) by lia.
  destruct C as [-> | [-> | ->]]; repeat constructor.
Qed.

(** C7 (amended): from SETUP, [startGame] moves to PLAYING exactly when the
    audio is ready and the chart input (the override, or the non-empty text
    parsed) is an array without a [null] entry; the array may be empty, and
    neither the times nor the lanes of the entries are checked (an omitted
    lane defaults to 1).  In every other case an alert is shown and the phase
    stays SETUP. *)
Theorem startGame_validation (JSON_parse : string -> option JSValue)
        (overrideBeats : option (list JSValue)) (g : Game) :
  gameState g = SETUP ->
  let g' := startGame JSON_parse overrideBeats g in
  (gameState g' = PLAYING <->
     AudioService.isReady (audio g) = true /\
     exists items, chart_array JSON_parse overrideBeats g items /\
                   Forall (fun e => e <> JNull /\ e <> JUndefined) items) /\
  (gameState g' = PLAYING ->
     exists items, chart_array JSON_parse overrideBeats g items /\
       List.length (beatsRef g') = List.length items /\
       forall i entry, nth_error items i = Some entry ->
         entry_lane entry = JUndefined \/ entry_lane entry = JNull ->
         exists b, In b (beatsRef g') /\ id b = i /\ lane b = JNumber 1) /\
  (gameState g' <> PLAYING ->
     gameState g' = SETUP /\ exists a, g' = alert a g).
Proof.
  intros Hs. cbv zeta.
  destruct (startGame_cases JSON_parse overrideBeats g)
    as [(a & E & C) | (c & R & L & P & B & _)].
  - rewrite E. simpl. rewrite Hs.
    split; [split; [discriminate|]|split; [discriminate|eauto]].
    intros (R & items & S & F).
    assert (K : exists chart, loadChart JSON_parse overrideBeats g = Chart chart)
      by (apply loadChart_Chart_iff; eauto).
    destruct K as [chart K]. destruct C as [C | [C | C]]; congruence.
  - split; [split; [intros _|intros _; exact P]|split; [intros _|congruence]].
    + split; [exact R|]. apply loadChart_Chart_iff. eauto.
    + rewrite B. destruct (loaded_lanes _ _ _ _ L) as (items & S & Len & H).
      exists items. split; [exact S|]. split; [exact Len|].
      intros i entry Hn Hl. destruct (H i entry Hn) as (b & A & I & _ & D). eauto.
Qed.

Lemma startGame_validation_witness :
  gameState (startGame JSON_parse_examples None (setup_with "[2, 1, 1.1]")) = PLAYING /\
  gameState (startGame JSON_parse_examples None (setup_with "[null]")) = SETUP.
Proof.
  destruct (startGame_validation JSON_parse_examples None (setup_with "[2, 1, 1.1]"))
    as (Hiff & _); [reflexivity|].
  destruct (startGame_validation JSON_parse_examples None (setup_with "[null]"))
    as (_ & _ & Hno); [reflexivity|].
  split.
  - apply Hiff. split; [reflexivity|].
    exists [JNumber 2; JNumber 1; JNumber (11 # 10)].
    split; [split; [discriminate | reflexivity]|].
    repeat constructor; discriminate.
  - apply Hno. vm_compute. discriminate.
Defined.

(** Counterexample to C7 as stated: with the audio ready, the chart text [[]] (an empty
    array) starts the game, with no beat at all. *)
Lemma startGame_validation_counterexample :
  let g := setup_with "[]" in
  gameState g = SETUP /\
  AudioService.isReady (audio g) = true /\
  JSON_parse_examples (rawBeatsInput g) = Some (JArray []) /\
  gameState (startGame JSON_parse_examples None g) = PLAYING /\
  beatsRef (startGame JSON_parse_examples None g) = [].
Proof.
  cbv zeta. repeat split.
Qed.

(** C8: when the chart text does not parse, or parses to something that is
    not an array, [startGame] shows one alert (the invalid-chart one when the
    audio is ready and the text is not empty) and changes nothing else: the
    phase (so the game does not start), the chart, score, combo and heat (the
    refs and their mirrors), the tier, the audio service and the frame
    request are as before. *)
Theorem malformed_chart_rejected (JSON_parse : string -> option JSValue) (g : Game) :
  (JSON_parse (rawBeatsInput g) = None \/
   exists v, JSON_parse (rawBeatsInput g) = Some v /\ Array_isArray v = false) ->
  let g' := startGame JSON_parse None g in
  exists a,
    alerts g' = alerts g ++ [a] /\
    (AudioService.isReady (audio g) = true -> rawBeatsInput g <> EmptyString ->
     a = AlertInvalidChart) /\
    gameState g' = gameState g /\
    beatsRef g' = beatsRef g /\
    scoreRef g' = scoreRef g /\ comboRef g' = comboRef g /\ heatRef g' = heatRef g /\
    score g' = score g /\ combo g' = combo g /\ heat g' = heat g /\ tier g' = tier g /\
    currentTimeDisplay g' = currentTimeDisplay g /\ rawBeatsInput g' = rawBeatsInput g /\
    audio g' = audio g /\ frame g' = frame g.
Proof.
  intros Hbad. cbv zeta.
  destruct (startGame_cases JSON_parse None g)
    as [(a & E & C) | (c & _ & L & _)].
  - exists a. rewrite E. split; [reflexivity|]. split; [|repeat split].
    intros R N. destruct C as [C | [C | C]]; [congruence | |].
    + unfold loadChart in C. apply String.eqb_neq in N. rewrite N in C.
      destruct (JSON_parse (rawBeatsInput g)) as [[| | | | |items|]|]; try discriminate.
      destruct (parseBeats 0 items); discriminate.
    + unfold startGame in E. rewrite R, C in E. simpl in E.
      assert (K : alerts (alert AlertInvalidChart g) = alerts (alert a g)) by congruence.
      simpl in K. apply app_inv_head in K. congruence.
  - exfalso. destruct (loadChart_items _ _ _ _ L) as (items & parsed & [_ S] & _).
    destruct Hbad as [N | (v & Ev & Na)]; [congruence|].
    rewrite S in Ev. injection Ev as <-. discriminate Na.
Qed.

Lemma malformed_chart_rejected_witness :
  let g := setup_with "{}" in
  exists a,
    alerts (startGame JSON_parse_examples None g) = [a] /\
    gameState (startGame JSON_parse_examples None g) = SETUP /\
    beatsRef (startGame JSON_parse_examples None g) = [].
Proof.
  cbv zeta.
  destruct (malformed_chart_rejected JSON_parse_examples (setup_with "{}"))
    as (a & A & _ & B & C & _).
  - right. exists (JObject []). split; reflexivity.
  - exists a. auto.
Defined.

(** ** The testable properties of the specification, run on the model *)

(** Tier thresholds: combos 9, 10, 29, 30, 49 and 50. *)
Example tier_thresholds :
  map (fun c => getTierFromRef (playing_at 30 0 [] c 0)) [9; 10; 29; 30; 49; 50]%Z
  = [0; 1; 1; 2; 2; 3]%Z.
Proof. reflexivity. Qed.

(** End to end: the chart [{time: 1, lane: 1}], lane 1 pressed at 1.02. *)
Example press_at_1_02 :
  let '(g, rating) := handleLaneInput 1 0 (playing_at 30 (102 # 100) [beat 0 1 1] 0 0) in
  rating = Some PERFECT /\ scoreRef g = 300%Z /\ comboRef g = 1%Z /\ heatRef g == 10
  /\ beatsRef g = [set_hit true (beat 0 1 1)].
Proof. vm_compute. repeat split. Qed.

(** A miss resets the combo: combo 5, heat 50, a beat at time 1 left alone
    until the clock reads 2. *)
Example miss_resets_combo :
  let g := loop (playing_at 30 2 [beat 0 1 1] 5 50) in
  comboRef g = 0%Z /\ heatRef g == 3485 # 100
  /\ beatsRef g = [set_missed true (beat 0 1 1)].
Proof. vm_compute. repeat split. Qed.

(** A press during the countdown is ignored. *)
Example press_in_countdown :
  handleLaneInput 1 0 (playing_at 30 (-1 # 10) [beat 0 0 1] 0 0)
  = (playing_at 30 (-1 # 10) [beat 0 0 1] 0 0, None).
Proof. reflexivity. Qed.

(** * Further properties *)

(** ** The tier *)

(** X1: the tier is between 0 and 3, it never decreases when the combo
    grows, and it reaches 1, 2 and 3 exactly at combos 10, 30 and 50. *)
Theorem tier_steps (g g' : Game) :
  (0 <= getTierFromRef g <= 3)%Z /\
  ((comboRef g <= comboRef g')%Z -> (getTierFromRef g <= getTierFromRef g')%Z) /\
  ((1 <= getTierFromRef g)%Z <-> (10 <= comboRef g)%Z) /\
  ((2 <= getTierFromRef g)%Z <-> (30 <= comboRef g)%Z) /\
  ((3 <= getTierFromRef g)%Z <-> (50 <= comboRef g)%Z).
Proof.
  unfold getTierFromRef.
  destruct (Z.ltb_spec (comboRef g) 10), (Z.ltb_spec (comboRef g) 30),
    (Z.ltb_spec (comboRef g) 50), (Z.ltb_spec (comboRef g') 10),
    (Z.ltb_spec (comboRef g') 30), (Z.ltb_spec (comboRef g') 50); lia.
Qed.

Lemma tier_steps_witness :
  (getTierFromRef (playing_at 30 0 [] 29 0) <= getTierFromRef (playing_at 30 0 [] 30 0))%Z.
Proof.
  destruct (tier_steps (playing_at 30 0 [] 29 0) (playing_at 30 0 [] 30 0)) as (_ & H & _).
  apply H. simpl. lia.
Defined.

(** ** Score and combo *)

Lemma hits_app (l1 l2 : list Beat) : hits (l1 ++ l2) = (hits l1 + hits l2)%Z.
Proof. unfold hits. rewrite filter_app, length_app. lia. Qed.

Lemma hits_cons (b : Beat) (l : list Beat) :
  hits (b :: l) = ((if hit b then 1 else 0) + hits l)%Z.
Proof. unfold hits. cbn [filter]. destruct (hit b); cbn [List.length]; lia. Qed.

Lemma hits_nonneg (l : list Beat) : (0 <= hits l)%Z.
Proof. unfold hits. lia. Qed.

Lemma hits_pending (l : list Beat) : Forall pending l -> hits l = 0%Z.
Proof.
  induction 1 as [|b l [H _] _ IH]; [reflexivity|].
  rewrite hits_cons, H, IH. reflexivity.
Qed.

Lemma hits_mark_overdue (now : Q) (l : list Beat) :
  hits (map (mark_overdue now) l) = hits l.
Proof.
  induction l as [|b l IH]; [reflexivity|].
  simpl. rewrite !hits_cons, IH. unfold mark_overdue.
  destruct (overdue now b); reflexivity.
Qed.

Lemma hits_hit_first (laneIndex : Z) (t : Q) (l : list Beat) :
  existsb (hittable laneIndex t) l = true ->
  hits (hit_first (hittable laneIndex t) l) = (hits l + 1)%Z.
Proof.
  intros H. destruct (find_first _ _ H) as (before & hb & after & -> & _ & P & _ & ->).
  apply hittable_pending in P as [P _].
  rewrite !hits_app, !hits_cons, P. cbn [hit set_hit]. lia.
Qed.

Lemma rerender_mirrors (before : GameState) (g : Game) :
  score (rerender before g) = score g /\ combo (rerender before g) = combo g /\
  heat (rerender before g) = heat g /\ tier (rerender before g) = tier g /\
  currentTimeDisplay (rerender before g) = currentTimeDisplay g /\
  rawBeatsInput (rerender before g) = rawBeatsInput g.
Proof.
  unfold rerender, mainLoopEffect.
  destruct (GameState_eqb before (gameState g)); [repeat split|].
  destruct (GameState_eqb (gameState g) PLAYING); repeat split.
Qed.

Lemma rerender_score_ok (before : GameState) (g : Game) :
  score_ok g -> score_ok (rerender before g).
Proof.
  unfold score_ok.
  destruct (rerender_keeps before g) as (_ & B & S & C & _).
  destruct (rerender_mirrors before g) as (Ms & Mc & _).
  rewrite B, S, C, Ms, Mc. auto.
Qed.

Lemma checkMisses_counters (now : Q) (beats : list Beat) (g : Game) :
  let g' := snd (checkMisses now beats g) in
  scoreRef g' = scoreRef g /\ score g' = score g /\
  (comboRef g' = comboRef g /\ combo g' = combo g \/
   comboRef g' = 0%Z /\ combo g' = 0%Z).
Proof.
  cbv zeta. revert g. induction beats as [|b rest IH]; intros g; simpl; [auto|].
  destruct (overdue now b).
  - specialize (IH (penalty g)). destruct (checkMisses now rest (penalty g)) as [r g'].
    simpl in *. destruct IH as (A & B & [[C D] | [C D]]); auto.
  - specialize (IH g). destruct (checkMisses now rest g) as [r g']. exact IH.
Qed.

Lemma decayed_mirrors (g : Game) :
  score (decayed g) = score g /\ combo (decayed g) = combo g.
Proof.
  unfold decayed. destruct (num_lt _ (1 # 2)); destruct (Z.rem _ 4 =? 0)%Z; split; reflexivity.
Qed.

Lemma loop_score_ok (g : Game) : score_ok g -> score_ok (loop g).
Proof.
  intros (S & C & Ms & Mc). rewrite loop_phases.
  destruct (decayed_frame g) as (_ & Eb & _ & Ec & Es & _).
  destruct (decayed_mirrors g) as (Ds & Dc).
  assert (D : score_ok (decayed g)).
  { unfold score_ok. rewrite Eb, Ec, Es, Ds, Dc. auto. }
  destruct (song_over g); [apply rerender_score_ok; exact D|].
  destruct (num_gt _ 0); [|exact D].
  pose proof (checkMisses_spec (AudioService.getCurrentTime (audio g))
                (beatsRef (decayed g)) (decayed g)) as (A & _).
  pose proof (checkMisses_counters (AudioService.getCurrentTime (audio g))
                (beatsRef (decayed g)) (decayed g)) as K. cbv zeta in K.
  destruct (checkMisses _ _ _) as [beats g']. simpl in *.
  unfold score_ok; simpl. rewrite A, hits_mark_overdue, Eb.
  destruct K as (K1 & K2 & K3). rewrite K1, K2, Es, Ds.
  pose proof (hits_nonneg (beatsRef g)).
  destruct K3 as [[K3 K4] | [K3 K4]]; rewrite K3, K4; repeat split; try lia; congruence.
Qed.

Lemma handleLaneInput_score_ok (laneIndex : Z) (draw : Q) (g : Game) :
  score_ok g -> score_ok (fst (handleLaneInput laneIndex draw g)).
Proof.
  intros K. pose proof K as (S & C & Ms & Mc). unfold handleLaneInput.
  destruct (negb (GameState_eqb (gameState g) PLAYING)); [exact K|].
  destruct (num_lt _ 0); [exact K|].
  destruct (find _ _) as [hb|] eqn:F; [|exact K].
  assert (E : existsb (hittable laneIndex (AudioService.getCurrentTime (audio g)))
                (beatsRef g) = true).
  { apply existsb_exists. exists hb. apply find_some in F. exact F. }
  pose proof (hits_hit_first _ _ _ E) as H.
  unfold judge. destruct (nan_lt _ PERFECT_WINDOW); unfold score_ok;
    cbn [fst beatsRef scoreRef comboRef score combo set_beatsRef set_scoreRef
         set_comboRef set_heatRef setScore setCombo setHeat];
    rewrite H; repeat split; lia.
Qed.

Lemma step_score_ok (e : Event) (g : Game) : score_ok g -> score_ok (step e g).
Proof.
  intros H. destruct e; simpl.
  - exact H.
  - destruct (frame g); [apply loop_score_ok|]; exact H.
  - apply handleLaneInput_score_ok, H.
Qed.

Lemma zeroed_score_ok (g : Game) :
  Forall pending (beatsRef g) ->
  scoreRef g = 0%Z -> comboRef g = 0%Z -> score g = 0%Z -> combo g = 0%Z ->
  score_ok g.
Proof.
  intros P S C Ms Mc. unfold score_ok. rewrite (hits_pending _ P), S, C, Ms, Mc.
  repeat split; lia.
Qed.

Lemma perform_score_ok (JSON_parse : string -> option JSValue) (a : Action) (g : Game) :
  score_ok g -> score_ok (perform JSON_parse a g).
Proof.
  intros H. destruct a; simpl; try exact H.
  - apply step_score_ok, H.
  - unfold startGame.
    destruct (negb (AudioService.isReady (audio g))); [exact H|].
    destruct (loadChart JSON_parse overrideBeats g) as [c| |] eqn:L; try exact H.
    apply rerender_score_ok, zeroed_score_ok; try reflexivity.
    simpl. eapply loadChart_pending; eassumption.
  - unfold restart. destruct (negb (GameState_eqb (gameState g) FINISHED)); [exact H|].
    apply rerender_score_ok, zeroed_score_ok; try reflexivity.
    simpl. apply Forall_map, Forall_forall. intros b _. split; reflexivity.
  - unfold mainMenu. destruct (negb (GameState_eqb (gameState g) FINISHED)); [exact H|].
    apply rerender_score_ok. exact H.
Qed.

(** X2: in every session from the first mount, the score lies between 100
    and 300 times the number of beats that are hit, the combo between 0 and
    that number, and the score and combo shown to the player are the ones of
    the game logic. *)
Theorem score_counts_hits (JSON_parse : string -> option JSValue)
        (a : AudioService.t) (acts : list Action) :
  let g := session JSON_parse acts (initialGame a) in
  (100 * hits (beatsRef g) <= scoreRef g <= 300 * hits (beatsRef g))%Z /\
  (0 <= comboRef g <= hits (beatsRef g))%Z /\
  score g = scoreRef g /\ combo g = comboRef g.
Proof.
  cbv zeta. change (score_ok (session JSON_parse acts (initialGame a))).
  assert (G : forall g, score_ok g -> score_ok (session JSON_parse acts g)).
  { unfold session. induction acts as [|x acts IH]; intros g H; simpl; [exact H|].
    apply IH, perform_score_ok, H. }
  apply G, zeroed_score_ok; try reflexivity. constructor.
Qed.

(** ** Presses that find no beat *)

Lemma nth_write_lane (i : Z) (v : bool) (lanes : list bool) :
  (0 <= i)%Z -> nth (Z.to_nat i) (write_lane i v lanes) false = v.
Proof.
  intros Hi. unfold write_lane.
  destruct (i <? 0)%Z eqn:N; [apply Z.ltb_lt in N; lia|]. cbv zeta.
  destruct (Z.to_nat i <? List.length lanes)%nat eqn:L.
  - apply Nat.ltb_lt in L.
    assert (F : List.length (firstn (Z.to_nat i) lanes) = Z.to_nat i)
      by (rewrite length_firstn; lia).
    rewrite app_nth2 by lia. rewrite F, Nat.sub_diag. reflexivity.
  - apply Nat.ltb_ge in L.
    rewrite app_nth2 by lia. rewrite app_nth2 by (rewrite repeat_length; lia).
    rewrite repeat_length, Nat.sub_diag. reflexivity.
Qed.

Lemma handleLaneInputLit_judges (laneIndex : Z) (draw : Q) (g : Game) (l : Lights) :
  let out := handleLaneInputLit laneIndex draw (g, l) in
  (fst (fst out), snd out) = handleLaneInput laneIndex draw g.
Proof.
  cbv zeta. unfold handleLaneInputLit, handleLaneInput.
  destruct (negb (GameState_eqb (gameState g) PLAYING)); [reflexivity|].
  destruct (num_lt (AudioService.getCurrentTime (audio g)) 0) eqn:N; [reflexivity|].
  cbv zeta. destruct (find _ _); [|reflexivity].
  destruct (judge _ _ _) as [[r s] h]. reflexivity.
Qed.

(** X3: a lane press outside PLAYING or at a negative clock changes nothing
    at all, neither the game nor the lane lights, and these are the only
    presses that change nothing.  Every other press lights its lane in
    [activeLanesRef] and arms one timeout of 100 ms for it, whose callback
    switches the lane off again; such a press leaves the game itself
    untouched and reports no rating exactly when no beat is eligible.  The
    judgement of the press does not depend on the lights. *)
Theorem press_without_beat (laneIndex : Z) (draw : Q) (g : Game) (l : Lights) :
  let now := AudioService.getCurrentTime (audio g) in
  let out := handleLaneInputLit laneIndex draw (g, l) in
  ((gameState g <> PLAYING \/ now < 0) <-> out = ((g, l), None)) /\
  (fst (fst out), snd out) = handleLaneInput laneIndex draw g /\
  (gameState g = PLAYING -> 0 <= now ->
     snd (fst out) = mkLights (write_lane laneIndex true (activeLanesRef l))
                              (timeouts l ++ [(laneIndex, 100%Z)]) /\
     ((0 <= laneIndex)%Z ->
        nth (Z.to_nat laneIndex) (activeLanesRef (snd (fst out))) false = true /\
        nth (Z.to_nat laneIndex)
          (activeLanesRef (releaseLane laneIndex (snd (fst out)))) false = false) /\
     (existsb (hittable laneIndex now) (beatsRef g) = false
      <-> fst (fst out) = g /\ snd out = None)).
Proof.
  cbv zeta.
  split; [|split; [apply handleLaneInputLit_judges|]].
  - unfold handleLaneInputLit.
    destruct (gameState g) eqn:S; simpl;
      try (split; [reflexivity | intros _; left; discriminate]).
    destruct (num_lt (AudioService.getCurrentTime (audio g)) 0) eqn:N.
    + split; [reflexivity|]. intros _. right. apply num_lt_iff. exact N.
    + apply num_lt_false_iff in N. split.
      * intros [H | H]; [congruence | exfalso; exact (Qlt_not_le _ _ H N)].
      * destruct (handleLaneInput laneIndex draw g) as [g' r]. intros E.
        exfalso. injection E as _ E _.
        apply (f_equal timeouts) in E. simpl in E.
        apply (f_equal (@List.length _)) in E. rewrite length_app in E.
        simpl in E. lia.
  - intros Hplay Hnow.
    assert (E : handleLaneInputLit laneIndex draw (g, l)
                = (fst (handleLaneInput laneIndex draw g),
                   mkLights (write_lane laneIndex true (activeLanesRef l))
                            (timeouts l ++ [(laneIndex, 100%Z)]),
                   snd (handleLaneInput laneIndex draw g))).
    { unfold handleLaneInputLit. rewrite Hplay. simpl.
      apply num_lt_false_iff in Hnow. rewrite Hnow.
      destruct (handleLaneInput laneIndex draw g) as [g' r]. reflexivity. }
    rewrite E. cbn [fst snd].
    split; [reflexivity|]. split.
    + intros Hi. cbn [releaseLane activeLanesRef].
      split; apply nth_write_lane; exact Hi.
    + unfold handleLaneInput. rewrite Hplay. simpl.
      apply num_lt_false_iff in Hnow. rewrite Hnow.
      destruct (find _ _) as [hb|] eqn:F.
      * assert (X : existsb (hittable laneIndex (AudioService.getCurrentTime (audio g)))
                      (beatsRef g) = true).
        { apply existsb_exists. exists hb. apply find_some in F. exact F. }
        destruct (judge _ _ _) as [[r s] h]. cbn [fst snd]. split.
        -- congruence.
        -- intros [_ K]. discriminate.
      * cbn [fst snd]. split; [auto|]. intros _.
        apply not_true_is_false. intros X. apply existsb_exists in X as (b & Hin & Hb).
        pose proof (find_none _ _ F b Hin). congruence.
Qed.

Lemma press_without_beat_witness :
  let g := playing_at 30 1 [beat 0 1 1] 4 20 in
  handleLaneInputLit 0 0 (g, initialLights)
  = ((g, mkLights [true; false; false] [(0%Z, 100%Z)]), None).
Proof.
  cbv zeta.
  destruct (press_without_beat 0 0 (playing_at 30 1 [beat 0 1 1] 4 20) initialLights)
    as (_ & _ & H).
  cbv zeta in H.
  destruct H as (L & _ & B); [reflexivity | vm_compute; discriminate |].
  destruct B as ((G & R) & _); [reflexivity|].
  destruct (handleLaneInputLit 0 0 (playing_at 30 1 [beat 0 1 1] 4 20, initialLights))
    as [[g' l'] r'].
  cbn [fst snd] in L, G, R. rewrite L, G, R. reflexivity.
Defined.

(** ** A frame settles the chart *)

Lemma loop_not_over (g : Game) :
  song_over g = false ->
  0 < AudioService.getCurrentTime (audio g) ->
  beatsRef (loop g) = map (mark_overdue (AudioService.getCurrentTime (audio g))) (beatsRef g) /\
  comboRef (loop g) =
    (if existsb (overdue (AudioService.getCurrentTime (audio g))) (beatsRef g)
     then 0%Z else comboRef g) /\
  heatRef (loop g) =
    Nat.iter (List.length (filter (overdue (AudioService.getCurrentTime (audio g)))
                             (beatsRef g)))
      cool_down (Math_max 0 (heatRef g - (15 # 100))).
Proof.
  intros Ho Hpos. rewrite loop_phases, Ho.
  destruct (decayed_frame g) as (_ & Eb & _ & Ec & _ & _ & Eh).
  apply num_gt_iff in Hpos. rewrite Hpos.
  destruct (checkMisses_spec (AudioService.getCurrentTime (audio g))
              (beatsRef (decayed g)) (decayed g)) as (A & B & C).
  destruct (checkMisses _ _ _) as [beats g']. simpl in *.
  rewrite Eb in *. rewrite Ec in B. rewrite Eh in C. auto.
Qed.

Lemma overdue_earlier (now now' : Q) (b : Beat) :
  now' <= now -> overdue now' b = true -> overdue now b = true.
Proof.
  intros L H. apply overdue_iff in H as (A & B & t & E & K).
  apply overdue_iff. repeat split; try assumption. exists t. split; [exact E | lra].
Qed.

Lemma marked_not_overdue (now now' : Q) (b : Beat) :
  now' <= now -> overdue now' (mark_overdue now b) = false.
Proof.
  intros L. apply not_true_is_false. intros H. unfold mark_overdue in H.
  destruct (overdue now b) eqn:E.
  - apply overdue_pending in H as [_ M]. discriminate M.
  - apply (overdue_earlier now now' b L) in H. congruence.
Qed.

(** X5: after a frame that does not end the song, run at a positive clock,
    no beat of the chart is overdue at that time or earlier; a second frame
    at the same clock therefore changes no beat and no combo and takes only
    the decay of 0.15 from the heat. *)
Theorem frame_settles_chart (g : Game) :
  song_over g = false ->
  0 < AudioService.getCurrentTime (audio g) ->
  (forall now', now' <= AudioService.getCurrentTime (audio g) ->
     Forall (fun b => overdue now' b = false) (beatsRef (loop g))) /\
  beatsRef (loop (loop g)) = beatsRef (loop g) /\
  comboRef (loop (loop g)) = comboRef (loop g) /\
  heatRef (loop (loop g)) = Math_max 0 (heatRef (loop g) - (15 # 100)).
Proof.
  intros Ho Hpos.
  destruct (loop_not_over g Ho Hpos) as (B & _).
  assert (S : forall now', now' <= AudioService.getCurrentTime (audio g) ->
                Forall (fun b => overdue now' b = false) (beatsRef (loop g))).
  { intros now' L. rewrite B. apply Forall_map, Forall_forall. intros b _.
    apply marked_not_overdue, L. }
  split; [exact S|].
  destruct (loop_goes_on g Ho) as (_ & _ & Ea).
  assert (Ho' : song_over (loop g) = false) by (unfold song_over; rewrite Ea; exact Ho).
  assert (Hpos' : 0 < AudioService.getCurrentTime (audio (loop g))) by (rewrite Ea; exact Hpos).
  destruct (loop_not_over (loop g) Ho' Hpos') as (B' & C' & H').
  rewrite Ea in B', C', H'.
  specialize (S _ (Qle_refl _)).
  assert (N : filter (overdue (AudioService.getCurrentTime (audio g))) (beatsRef (loop g)) = []).
  { clear - S. induction S as [|b l Hb _ IH]; [reflexivity|]. simpl. rewrite Hb. exact IH. }
  assert (X : existsb (overdue (AudioService.getCurrentTime (audio g))) (beatsRef (loop g)) = false).
  { clear - S. induction S as [|b l Hb _ IH]; [reflexivity|]. simpl. rewrite Hb. exact IH. }
  rewrite N in H'. rewrite X in C'. split; [|split; [exact C' | exact H']].
  rewrite B'. clear - S. induction S as [|b l Hb _ IH]; [reflexivity|].
  simpl. rewrite IH. unfold mark_overdue. rewrite Hb. reflexivity.
Qed.

Lemma frame_settles_chart_witness :
  let g := playing_at 30 2 [beat 0 1 1; beat 1 3 1] 7 20 in
  beatsRef (loop (loop g)) = beatsRef (loop g) /\
  comboRef (loop (loop g)) = comboRef (loop g).
Proof.
  cbv zeta.
  destruct (frame_settles_chart (playing_at 30 2 [beat 0 1 1; beat 1 3 1] 7 20))
    as (_ & A & B & _); [reflexivity | reflexivity | auto].
Defined.

(** ** The audio service, call after call *)

Lemma playable_call (c : AudioCall) (s : AudioService.t) :
  playable s -> playable (audioCall c s).
Proof.
  unfold playable. destruct s as [[x|] [n|] [b|] st]; destruct c; simpl;
    intros H; try exact H; try discriminate;
    try (intros _; exfalso; apply H; [discriminate | reflexivity]).
Qed.





(** ** The phase, the frame request and the audio *)

Lemma handleLaneInput_keeps (laneIndex : Z) (draw : Q) (g : Game) :
  let g' := fst (handleLaneInput laneIndex draw g) in
  gameState g' = gameState g /\ frame g' = frame g /\ audio g' = audio g /\
  currentTimeDisplay g' = currentTimeDisplay g /\ alerts g' = alerts g.
Proof.
  cbv zeta. unfold handleLaneInput.
  destruct (negb (GameState_eqb (gameState g) PLAYING)); [repeat split|].
  destruct (num_lt _ 0); [repeat split|].
  destruct (find _ _); [|repeat split].
  destruct (judge _ _ _) as [[r s] h]. repeat split.
Qed.

Lemma playable_stop (s : AudioService.t) : playable s -> playable (AudioService.stop s).
Proof. apply (playable_call CallStop). Qed.

Lemma mainLoopEffect_phase_ok (g : Game) :
  playable (audio g) -> phase_ok (mainLoopEffect g).
Proof.
  intros P. unfold mainLoopEffect, phase_ok.
  destruct (gameState g) eqn:S; simpl; rewrite ?S;
    repeat split; try discriminate; try congruence;
    try (intros; apply stop_clears_source); try (apply playable_stop); assumption.
Qed.

Lemma rerender_phase_ok (before : GameState) (g : Game) :
  playable (audio g) ->
  (before = gameState g -> phase_ok g) ->
  phase_ok (rerender before g).
Proof.
  intros P H. unfold rerender.
  destruct (GameState_eqb before (gameState g)) eqn:E.
  - apply H. destruct before, (gameState g); try discriminate; reflexivity.
  - apply mainLoopEffect_phase_ok; auto.
Qed.

Lemma loop_phase_ok (g : Game) : phase_ok g -> frame g = true -> phase_ok (loop g).
Proof.
  intros (F & S & P) Hf. assert (Hp : gameState g = PLAYING) by (apply F, Hf).
  destruct (song_over g) eqn:O.
  - destruct (loop_over g Hp O) as (A & B & C).
    unfold phase_ok. rewrite A, B. repeat split; try discriminate; auto.
    rewrite loop_phases, O, Hp. unfold rerender, mainLoopEffect; simpl.
    destruct (decayed_frame g) as (_ & _ & Ea & _). rewrite Ea. apply playable_stop, P.
  - destruct (loop_goes_on g O) as (A & B & C).
    unfold phase_ok. rewrite A, B, C, Hp. repeat split; auto; congruence.
Qed.

Lemma step_phase_ok (e : Event) (g : Game) : phase_ok g -> phase_ok (step e g).
Proof.
  intros H. destruct e; simpl.
  - destruct H as (F & S & P). unfold phase_ok; simpl.
    split; [exact F|]. split.
    + intros N. specialize (S N). unfold AudioService.advance.
      destruct (AudioService.ctx (audio g)); simpl; exact S.
    + apply (playable_call (CallAdvance dt)), P.
  - destruct (frame g) eqn:Hf; [apply loop_phase_ok|]; assumption.
  - destruct (handleLaneInput_keeps laneIndex draw g) as (A & B & C & _).
    unfold phase_ok. rewrite A, B, C. exact H.
Qed.

Lemma perform_phase_ok (JSON_parse : string -> option JSValue) (a : Action) (g : Game) :
  phase_ok g -> phase_ok (perform JSON_parse a g).
Proof.
  intros H. pose proof H as (F & S & P). destruct a; simpl.
  - apply step_phase_ok, H.
  - exact H.
  - unfold phase_ok; simpl. split; [exact F|]. split.
    + intros N. specialize (S N). unfold AudioService.setBuffer, AudioService.init.
      destruct (AudioService.ctx (audio g)); simpl; exact S.
    + apply (playable_call (CallSetBuffer b)), P.
  - unfold startGame.
    destruct (negb (AudioService.isReady (audio g))); [exact H|].
    destruct (loadChart JSON_parse overrideBeats g); try exact H.
    apply rerender_phase_ok; simpl.
    + apply (playable_call (CallPlay 3)), P.
    + intros E. unfold phase_ok; simpl. split; [|split].
      * split; [reflexivity | intros _; apply F; exact E].
      * congruence.
      * apply (playable_call (CallPlay 3)), P.
  - unfold restart. destruct (negb (GameState_eqb (gameState g) FINISHED)) eqn:E; [exact H|].
    apply rerender_phase_ok; simpl.
    + apply (playable_call (CallPlay 3)), P.
    + intros K. destruct (gameState g); discriminate.
  - unfold mainMenu. destruct (negb (GameState_eqb (gameState g) FINISHED)) eqn:E; [exact H|].
    apply rerender_phase_ok; simpl; [exact P|].
    intros K. destruct (gameState g); discriminate.
Qed.

(** X7: in every session from the first mount on a new audio service, an
    animation frame is requested exactly when the phase is PLAYING, and in
    SETUP and FINISHED the audio has no source, so its clock reads 0. *)
Theorem phase_drives_loop (JSON_parse : string -> option JSValue) (acts : list Action) :
  let g := session JSON_parse acts (initialGame AudioService.new) in
  (frame g = true <-> gameState g = PLAYING) /\
  (gameState g <> PLAYING ->
     AudioService.source (audio g) = None /\
     AudioService.getCurrentTime (audio g) = 0).
Proof.
  cbv zeta.
  assert (G : forall g, phase_ok g -> phase_ok (session JSON_parse acts g)).
  { unfold session. induction acts as [|x acts IH]; intros g H; simpl; [exact H|].
    apply IH, perform_phase_ok, H. }
  destruct (G (initialGame AudioService.new)) as (F & S & _).
  - unfold phase_ok, playable; simpl. repeat split; try discriminate; congruence.
  - split; [exact F|]. intros N. split; [apply S, N | apply idle_clock, S, N].
Qed.

Lemma phase_drives_loop_witness :
  let g := session JSON_parse_examples
             [UploadAudio (AudioService.mkBuffer 1); TypeChart "[]"; StartGame None;
              Play (Advance 7); Play Frame]
             (initialGame AudioService.new) in
  gameState g = FINISHED /\ frame g = false /\ AudioService.getCurrentTime (audio g) = 0.
Proof.
  cbv zeta.
  destruct (phase_drives_loop JSON_parse_examples
              [UploadAudio (AudioService.mkBuffer 1); TypeChart "[]"; StartGame None;
               Play (Advance 7); Play Frame]) as (F & S).
  split; [reflexivity|]. split; [reflexivity|].
  apply S. vm_compute. discriminate.
Defined.

(** ** The countdown *)



Lemma handleKeyDown_cases (e : KeyboardEvent) (draw : Q) (g : Game) :
  handleKeyDown e draw g = g \/
  exists laneIndex,
    (laneIndex = 0 \/ laneIndex = 1 \/ laneIndex = 2)%Z /\
    handleKeyDown e draw g = fst (handleLaneInput laneIndex draw g).
Proof.
  unfold handleKeyDown. destruct (repeat e); [left; reflexivity|].
  destruct (String.eqb (code e) "KeyA") eqn:A.
  - apply String.eqb_eq in A. rewrite A. simpl. right. exists 0%Z. auto.
  - destruct (String.eqb (code e) "Space") eqn:S.
    + apply String.eqb_eq in S. rewrite S. simpl. right. exists 1%Z. auto.
    + destruct (String.eqb (code e) "KeyD"); [right; exists 2%Z|left]; auto.
Qed.



(** ** The keyboard *)

Lemma out_of_reach_refl (l : list Beat) : Forall2 out_of_reach l l.
Proof. induction l; constructor; auto. split; [apply evolves_refl | reflexivity]. Qed.

Lemma out_of_reach_trans (l1 l2 l3 : list Beat) :
  Forall2 out_of_reach l1 l2 -> Forall2 out_of_reach l2 l3 -> Forall2 out_of_reach l1 l3.
Proof.
  intros H. revert l3. induction H as [|a b l1 l2 [E1 K1] _ IH]; intros l3 H3;
    inversion H3 as [|? c ? l3' [E2 K2] H3']; subst; constructor; [|auto].
  split; [eapply evolves_trans; eassumption|].
  intros O. rewrite K2, K1; auto.
  destruct E1 as (_ & _ & L & _). unfold off_track in *. rewrite L. exact O.
Qed.

Lemma hit_first_out_of_reach (laneIndex : Z) (t : Q) (l : list Beat) :
  (laneIndex = 0 \/ laneIndex = 1 \/ laneIndex = 2)%Z ->
  Forall2 out_of_reach l (hit_first (hittable laneIndex t) l).
Proof.
  intros Hl. induction l as [|b rest IH]; simpl; [constructor|].
  destruct (hittable laneIndex t b) eqn:E.
  - constructor; [|apply out_of_reach_refl].
    split; [apply set_hit_evolves; eapply hittable_pending; eassumption|].
    intros (O0 & O1 & O2). apply hittable_iff in E as (_ & _ & L & _).
    destruct Hl as [-> | [-> | ->]]; congruence.
  - constructor; [|exact IH]. split; [apply evolves_refl | reflexivity].
Qed.

Lemma mark_overdue_out_of_reach (now : Q) (l : list Beat) :
  Forall2 out_of_reach l (map (mark_overdue now) l).
Proof.
  induction l as [|b rest IH]; simpl; constructor; [|exact IH].
  split.
  - pose proof (mark_overdue_evolves now [b]) as H. inversion H; subst. assumption.
  - intros _. unfold mark_overdue. destruct (overdue now b); reflexivity.
Qed.

Lemma deliver_out_of_reach (e : BrowserEvent) (g : Game) :
  Forall2 out_of_reach (beatsRef g) (beatsRef (deliver e g)).
Proof.
  destruct e as [dt| |k draw]; simpl.
  - apply out_of_reach_refl.
  - destruct (frame g); [|apply out_of_reach_refl].
    destruct (loop_beats g) as [E|E]; rewrite E;
      [apply out_of_reach_refl | apply mark_overdue_out_of_reach].
  - destruct (handleKeyDown_cases k draw g) as [E | (l & Hl & E)]; rewrite E;
      [apply out_of_reach_refl|].
    destruct (handleLaneInput_beats l draw g) as [B|B]; rewrite B;
      [apply out_of_reach_refl | apply hit_first_out_of_reach, Hl].
Qed.

(** X9: the keyboard reaches lanes 0, 1 and 2 only: a repeated key and any
    key other than A, Space and D do nothing, and whatever the browser
    delivers (clock, frames, keys), a beat whose lane is none of 0, 1 and 2
    is never hit. *)
Theorem keyboard_reaches_three_lanes :
  (forall e draw g,
     repeat e = true \/
     (code e <> "KeyA" /\ code e <> "Space" /\ code e <> "KeyD")%string ->
     handleKeyDown e draw g = g) /\
  (forall es g,
     Forall2 (fun b b' => off_track b -> hit b' = hit b)
       (beatsRef g) (beatsRef (deliver_all es g))).
Proof.
  split.
  - intros e draw g [R | (A & S & D)]; unfold handleKeyDown.
    + rewrite R. reflexivity.
    + apply String.eqb_neq in A, S, D. rewrite A, S, D.
      destruct (repeat e); reflexivity.
  - intros es g.
    assert (H : Forall2 out_of_reach (beatsRef g) (beatsRef (deliver_all es g))).
    { revert g. unfold deliver_all. induction es as [|e es IH]; intros g; simpl.
      - apply out_of_reach_refl.
      - eapply out_of_reach_trans; [apply deliver_out_of_reach | apply IH]. }
    eapply Forall2_impl; [|exact H]. intros b b' [_ K]. exact K.
Qed.

Lemma keyboard_reaches_three_lanes_witness :
  let g := playing_at 30 1 [mkBeat 0 (JNumber 1) (JNumber 5) false false] 0 0 in
  handleKeyDown (mkKey "KeyW" false) 0 g = g /\
  Forall2 (fun b b' => off_track b -> hit b' = hit b)
    (beatsRef g)
    (beatsRef (deliver_all [KeyDown (mkKey "KeyA" false) 0;
                            KeyDown (mkKey "Space" false) 0; AnimationFrame] g)).
Proof.
  cbv zeta. destruct keyboard_reaches_three_lanes as (A & B).
  split; [|apply B].
  apply A. right. repeat split; discriminate.
Defined.

(** ** The countdown overlay *)

Lemma checkMisses_display (now : Q) (beats : list Beat) (g : Game) :
  currentTimeDisplay (snd (checkMisses now beats g)) = currentTimeDisplay g.
Proof.
  revert g. induction beats as [|b rest IH]; intros g; simpl; [reflexivity|].
  destruct (overdue now b).
  - specialize (IH (penalty g)). destruct (checkMisses now rest (penalty g)). exact IH.
  - specialize (IH g). destruct (checkMisses now rest g). exact IH.
Qed.

Lemma loop_display (g : Game) :
  currentTimeDisplay (loop g) =
  if num_lt (AudioService.getCurrentTime (audio g)) (1 # 2)
  then AudioService.getCurrentTime (audio g)
  else currentTimeDisplay g.
Proof.
  assert (D : currentTimeDisplay (decayed g) =
              if num_lt (AudioService.getCurrentTime (audio g)) (1 # 2)
              then AudioService.getCurrentTime (audio g)
              else currentTimeDisplay g).
  { unfold decayed. destruct (num_lt _ (1 # 2)); destruct (Z.rem _ 4 =? 0)%Z; reflexivity. }
  rewrite loop_phases. destruct (song_over g).
  - through_rerender rerender_mirrors. destruct Hkeeps as (_ & _ & _ & _ & E & _).
    rewrite E. exact D.
  - destruct (num_gt _ 0); [|exact D].
    pose proof (checkMisses_display (AudioService.getCurrentTime (audio g))
                  (beatsRef (decayed g)) (decayed g)) as C.
    destruct (checkMisses _ _ _) as [beats g']. simpl in *. rewrite C. exact D.
Qed.

(** X10: a frame copies the clock into [currentTimeDisplay] only while the
    clock is below 0.5.  So after a frame the overlay shows "3", "2" or "1"
    for a clock in [[-3,-2)], [[-2,-1)] or [[-1,0)], nothing for a clock in
    [[0,0.5)], and from 0.5 on it shows what it showed before the frame: once
    the display is not negative, no later frame at a clock [>= 0] brings the
    overlay back. *)
Theorem countdown_overlay (g : Game) :
  let now := AudioService.getCurrentTime (audio g) in
  (now < -2 -> getCountdownText (loop g) = "3"%string) /\
  (-2 <= now -> now < -1 -> getCountdownText (loop g) = "2"%string) /\
  (-1 <= now -> now < 0 -> getCountdownText (loop g) = "1"%string) /\
  (0 <= now -> now < 1 # 2 -> getCountdownText (loop g) = ""%string) /\
  (1 # 2 <= now -> getCountdownText (loop g) = getCountdownText g) /\
  (0 <= now -> 0 <= currentTimeDisplay g ->
     0 <= currentTimeDisplay (loop g) /\ getCountdownText (loop g) = ""%string).
Proof.
  cbv zeta.
  assert (T : forall d, (d < -2 -> (if num_lt d (-2) then "3"
                 else if num_lt d (-1) then "2" else if num_lt d 0 then "1" else "")%string
                 = "3"%string) /\
              (-2 <= d -> d < -1 -> (if num_lt d (-2) then "3"
                 else if num_lt d (-1) then "2" else if num_lt d 0 then "1" else "")%string
                 = "2"%string) /\
              (-1 <= d -> d < 0 -> (if num_lt d (-2) then "3"
                 else if num_lt d (-1) then "2" else if num_lt d 0 then "1" else "")%string
                 = "1"%string) /\
              (0 <= d -> (if num_lt d (-2) then "3"
                 else if num_lt d (-1) then "2" else if num_lt d 0 then "1" else "")%string
                 = ""%string)).
  { intros d.
    destruct (num_lt d (-2)) eqn:A; [apply num_lt_iff in A | apply num_lt_false_iff in A];
    destruct (num_lt d (-1)) eqn:B; [apply num_lt_iff in B | apply num_lt_false_iff in B
                                    | apply num_lt_iff in B | apply num_lt_false_iff in B];
    destruct (num_lt d 0) eqn:C;
      try apply num_lt_iff in C; try apply num_lt_false_iff in C;
      repeat split; intros; try reflexivity; exfalso; lra. }
  unfold getCountdownText. rewrite loop_display.
  destruct (num_lt (AudioService.getCurrentTime (audio g)) (1 # 2)) eqn:H;
    [apply num_lt_iff in H | apply num_lt_false_iff in H].
  - destruct (T (AudioService.getCurrentTime (audio g))) as (T3 & T2 & T1 & T0).
    repeat split; intros; auto; try (exfalso; lra).
  - destruct (T (currentTimeDisplay g)) as (_ & _ & _ & T0).
    repeat split; intros; auto; try (exfalso; lra).
Qed.

Lemma countdown_overlay_witness :
  getCountdownText (loop (playing_at 30 (-15 # 10) [beat 0 1 1] 0 0)) = "2"%string.
Proof.
  destruct (countdown_overlay (playing_at 30 (-15 # 10) [beat 0 1 1] 0 0))
    as (_ & H & _).
  apply H; vm_compute; [discriminate | reflexivity].
Defined.

(** ** The chart stays in order *)

Lemma evolves_timed (l l' : list Beat) :
  Forall2 evolves l l' -> Forall timed l' -> Forall timed l.
Proof.
  induction 1 as [|b b' l l' (_ & T & _) _ IH]; intros H; [constructor|].
  inversion H as [|? ? [t E] H']; subst. constructor; [|auto].
  exists t. rewrite <- T. exact E.
Qed.

Lemma cleared_evolves_time (l : list Beat) :
  Forall2 (fun b b' => time b' = time b)
    l (map (fun b => set_missed false (set_hit false b)) l).
Proof. induction l; simpl; constructor; auto. Qed.

Lemma same_times_sorted (l l' : list Beat) :
  Forall2 (fun b b' => time b' = time b) l l' ->
  (Forall timed l' -> Forall timed l) /\
  (StronglySorted time_le l -> StronglySorted time_le l').
Proof.
  intros H. split.
  - induction H as [|b b' l l' T _ IH]; intros K; [constructor|].
    inversion K as [|? ? [t E] K']; subst. constructor; [|auto].
    exists t. rewrite <- T. exact E.
  - induction H as [|b b' l l' T Hl IH]; intros Hs; [constructor|].
    inversion Hs as [|? ? Hs' Hall]; subst. constructor; [auto|].
    clear IH Hs Hs'. induction Hl as [|c c' l l' Tc _ IH]; [constructor|].
    inversion Hall; subst. constructor; [|auto].
    unfold time_le in *. rewrite T, Tc. assumption.
Qed.

Lemma perform_chart_sorted (JSON_parse : string -> option JSValue) (a : Action) (g : Game) :
  chart_sorted g -> chart_sorted (perform JSON_parse a g).
Proof.
  unfold chart_sorted. intros H. destruct a; simpl; try exact H.
  - intros T. eapply evolves_sorted; [apply step_evolves|].
    apply H. eapply evolves_timed; [apply step_evolves | exact T].
  - destruct (startGame_cases JSON_parse overrideBeats g)
      as [(a & -> & _) | (c & _ & L & _ & -> & _)]; [exact H|].
    intros T. apply loadChart_items in L as (items & parsed & _ & _ & ->).
    apply Array_sort_sorted.
    eapply Permutation_Forall; [symmetry; apply Array_sort_perm | exact T].
  - unfold restart. destruct (negb (GameState_eqb (gameState g) FINISHED)); [exact H|].
    through_rerender rerender_keeps. destruct Hkeeps as (_ & B & _).
    rewrite B. simpl.
    destruct (same_times_sorted _ _ (cleared_evolves_time (beatsRef g))) as (A & S).
    intros T. apply S, H, A, T.
  - unfold mainMenu. destruct (negb (GameState_eqb (gameState g) FINISHED)); [exact H|].
    through_rerender rerender_keeps. destruct Hkeeps as (_ & B & _).
    rewrite B. exact H.
Qed.

(** X11: in every session from the first mount, whenever the times of the
    current chart are all numbers the chart is in ascending order of time:
    loading sorts it, and neither frames, presses nor the replay button
    disturb the order. *)
Theorem chart_always_sorted (JSON_parse : string -> option JSValue)
        (a : AudioService.t) (acts : list Action) :
  Forall timed (beatsRef (session JSON_parse acts (initialGame a))) ->
  StronglySorted time_le (beatsRef (session JSON_parse acts (initialGame a))).
Proof.
  assert (G : forall g, chart_sorted g -> chart_sorted (session JSON_parse acts g)).
  { unfold session. induction acts as [|x acts IH]; intros g H; simpl; [exact H|].
    apply IH, perform_chart_sorted, H. }
  apply G. intros _. constructor.
Qed.

Lemma chart_always_sorted_witness :
  StronglySorted time_le
    (beatsRef (session JSON_parse_examples
                 [UploadAudio (AudioService.mkBuffer 1); TypeChart "[2, 1, 1.1]";
                  StartGame None; Play (Advance 4); Play (Key 1 0); Play (Advance 3);
                  Play Frame; Replay]
                 (initialGame AudioService.new))).
Proof.
  apply chart_always_sorted.
  repeat constructor; eexists; reflexivity.
Defined.

(** ** The ids of the beats *)

Lemma parseBeats_ids (items : list JSValue) (i : nat) (parsed : list Beat) :
  parseBeats i items = Some parsed -> map id parsed = seq i (List.length items).
Proof.
  revert i parsed. induction items as [|v rest IH]; intros i parsed; simpl.
  - intros [= <-]. reflexivity.
  - destruct (parseBeat i v) as [b|] eqn:E; [|discriminate].
    destruct (parseBeats (S i) rest) as [bs|] eqn:R; [|discriminate].
    intros [= <-]. simpl. apply parseBeat_pending in E as [_ E].
    rewrite E, (IH _ _ R). reflexivity.
Qed.

Lemma evolves_ids (l l' : list Beat) : Forall2 evolves l l' -> map id l' = map id l.
Proof.
  induction 1 as [|b b' l l' (I & _) _ IH]; [reflexivity|].
  simpl. rewrite I, IH. reflexivity.
Qed.

(** X12: a loaded chart numbers its beats by their position in the input:
    the ids are 0 to n-1, each once, and no frame or press changes the id of
    the beat at any position of the chart. *)
Theorem ids_number_the_input (JSON_parse : string -> option JSValue)
        (overrideBeats : option (list JSValue)) (g : Game) (chart : list Beat) :
  loadChart JSON_parse overrideBeats g = Chart chart ->
  Permutation (map id chart) (seq 0 (List.length chart)) /\
  NoDup (map id chart) /\
  forall es g0, beatsRef g0 = chart ->
    map id (beatsRef (run es g0)) = map id chart.
Proof.
  intros L. destruct (loadChart_items _ _ _ _ L) as (items & parsed & _ & P & ->).
  assert (A : Permutation (map id (Array_sort parsed))
                (seq 0 (List.length (Array_sort parsed)))).
  { rewrite <- (Permutation_length (Array_sort_perm parsed)).
    rewrite (parseBeats_length _ _ _ P), <- (parseBeats_ids _ _ _ P).
    apply Permutation_map. symmetry. apply Array_sort_perm. }
  split; [exact A|]. split.
  - eapply Permutation_NoDup; [symmetry; exact A | apply seq_NoDup].
  - intros es g0 <-. apply evolves_ids, run_evolves.
Qed.

Lemma ids_number_the_input_witness :
  NoDup (map id [mkBeat 1 (JNumber 1) (JNumber 1) false false;
                 mkBeat 2 (JNumber (11 # 10)) (JNumber 1) false false;
                 mkBeat 0 (JNumber 2) (JNumber 1) false false]).
Proof.
  destruct (ids_number_the_input JSON_parse_examples None (setup_with "[2, 1, 1.1]")
              [mkBeat 1 (JNumber 1) (JNumber 1) false false;
               mkBeat 2 (JNumber (11 # 10)) (JNumber 1) false false;
               mkBeat 0 (JNumber 2) (JNumber 1) false false]) as (_ & H & _);
    [reflexivity | exact H].
Defined.

(** ** A track without duration *)

Lemma step_duration (e : Event) (g : Game) :
  ~ 0 < AudioService.getDuration (audio g) ->
  gameState g = PLAYING ->
  ~ 0 < AudioService.getDuration (audio (step e g)) /\ gameState (step e g) = PLAYING.
Proof.
  intros D P. destruct e; simpl.
  - split; [|exact P]. unfold AudioService.getDuration, AudioService.advance in *.
    destruct (AudioService.ctx (audio g)); simpl; exact D.
  - destruct (frame g); [|auto].
    assert (O : song_over g = false).
    { apply not_true_is_false. intros H. apply song_over_iff in H. tauto. }
    destruct (loop_goes_on g O) as (A & _ & C). rewrite A, C. auto.
  - destruct (handleLaneInput_keeps laneIndex draw g) as (A & _ & C & _).
    rewrite A, C. auto.
Qed.

(** X13: the finish check needs a positive duration: while the audio
    service reports a duration that is not positive (no buffer, or a buffer
    of length 0), no run of frames, presses and clock movement takes the game
    out of PLAYING. *)
Theorem no_duration_no_finish (es : list Event) (g : Game) :
  ~ 0 < AudioService.getDuration (audio g) ->
  gameState g = PLAYING ->
  gameState (run es g) = PLAYING.
Proof.
  revert g. unfold run. induction es as [|e es IH]; intros g D P; simpl; [exact P|].
  destruct (step_duration e g D P) as (D' & P'). apply IH; assumption.
Qed.

Lemma no_duration_no_finish_witness :
  gameState (run [Advance 100; Frame; Advance 1000; Frame]
               (playing_at 0 1 [beat 0 1 1] 0 0)) = PLAYING.
Proof.
  apply no_duration_no_finish; [vm_compute; discriminate | reflexivity].
Defined.

(** ** The replay button *)



(** ** The visual entities *)

Lemma updateInPlace_from {A : Type} (update : A -> A) (expired : A -> bool)
      (todo done : list A) (fuel : nat) :
  (List.length todo <= fuel)%nat ->
  updateInPlace update expired fuel (List.length done) (done ++ todo)
  = Some (done ++ filter (fun t => negb (expired t)) (map update todo)).
Proof.
  revert done fuel. induction todo as [|t todo IH]; intros done fuel Hf.
  - rewrite app_nil_r. destruct fuel; simpl;
      rewrite (proj2 (nth_error_None done (List.length done)) (Nat.le_refl _));
      rewrite app_nil_r; reflexivity.
  - destruct fuel as [|fuel]; [simpl in Hf; lia|].
    simpl in Hf.
    assert (N : nth_error (done ++ t :: todo) (List.length done) = Some t).
    { rewrite nth_error_app2 by lia. rewrite Nat.sub_diag. reflexivity. }
    assert (F : firstn (List.length done) (done ++ t :: todo) = done).
    { rewrite firstn_app, Nat.sub_diag, firstn_all. simpl. apply app_nil_r. }
    assert (K : skipn (S (List.length done)) (done ++ t :: todo) = todo).
    { rewrite skipn_app, skipn_all2 by lia.
      replace (S (List.length done) - List.length done)%nat with 1%nat by lia.
      reflexivity. }
    cbn [updateInPlace]. rewrite N, F, K. cbn [map filter].
    destruct (expired (update t)) eqn:E; cbn [negb].
    + apply IH. lia.
    + specialize (IH (done ++ [update t]) fuel).
      rewrite length_app, <- app_assoc in IH. cbn [List.length app] in IH.
      rewrite Nat.add_1_r in IH. rewrite IH by lia. rewrite <- app_assoc. reflexivity.
Qed.

Lemma updateInPlace_all {A : Type} (update : A -> A) (expired : A -> bool)
      (arr : list A) (fuel : nat) :
  (List.length arr <= fuel)%nat ->
  updateInPlace update expired fuel 0 arr
  = Some (filter (fun t => negb (expired t)) (map update arr)).
Proof. exact (updateInPlace_from update expired arr [] fuel). Qed.

(** X15: the in-place update of the entities skips none and needs no more
    iterations than there are entities: given that many, every text, debris
    and shockwave is updated exactly once, those whose opacity or life is
    then [<= 0] are removed and the others stay in their order.  So no list
    grows, and every entity left has a positive opacity or life. *)
Theorem entities_updated_once (fuel : nat) (e : Entities) :
  (List.length (textRef e) <= fuel)%nat ->
  (List.length (debrisRef e) <= fuel)%nat ->
  (List.length (shockwavesRef e) <= fuel)%nat ->
  exists e',
    updateEntities fuel e = Some e' /\
    textRef e' = filter (fun t => negb (textGone t)) (map riseText (textRef e)) /\
    debrisRef e' = filter (fun p => negb (debrisGone p)) (map moveDebris (debrisRef e)) /\
    shockwavesRef e' =
      filter (fun s => negb (shockwaveGone s)) (map growShockwave (shockwavesRef e)) /\
    (List.length (textRef e') <= List.length (textRef e))%nat /\
    Forall (fun t => 0 < FloatingText.opacity t) (textRef e') /\
    Forall (fun p => 0 < Debris.life p) (debrisRef e') /\
    Forall (fun s => 0 < Shockwave.opacity s) (shockwavesRef e').
Proof.
  intros Ht Hd Hs. unfold updateEntities.
  rewrite (updateInPlace_all riseText textGone (textRef e) fuel Ht).
  rewrite (updateInPlace_all moveDebris debrisGone (debrisRef e) fuel Hd).
  rewrite (updateInPlace_all growShockwave shockwaveGone (shockwavesRef e) fuel Hs).
  eexists. split; [reflexivity|]. cbn [textRef debrisRef shockwavesRef].
  repeat split.
  - eapply Nat.le_trans; [apply filter_length_le | rewrite length_map; apply Nat.le_refl].
  - apply Forall_forall. intros t H. apply filter_In in H as [_ H].
    apply negb_true_iff in H. unfold textGone in H.
    apply Qnot_le_lt. intros L. apply Qle_bool_iff in L. congruence.
  - apply Forall_forall. intros t H. apply filter_In in H as [_ H].
    apply negb_true_iff in H. unfold debrisGone in H.
    apply Qnot_le_lt. intros L. apply Qle_bool_iff in L. congruence.
  - apply Forall_forall. intros t H. apply filter_In in H as [_ H].
    apply negb_true_iff in H. unfold shockwaveGone in H.
    apply Qnot_le_lt. intros L. apply Qle_bool_iff in L. congruence.
Qed.

Lemma entities_updated_once_witness :
  exists e',
    updateEntities 2
      (mkEntities
         [FloatingText.mk 1 "GREAT!" 100 200 "#22d3ee" (1 # 2) (2 # 100) 0;
          FloatingText.mk 2 "PERFECT!" 100 200 "#22d3ee" (1 # 2) 1 0]
         [] []) = Some e' /\
    textRef e' = [FloatingText.mk 2 "PERFECT!" 100 (1985 # 10) "#22d3ee" (1 # 2) (98 # 100) 0].
Proof.
  destruct (entities_updated_once 2
              (mkEntities
                 [FloatingText.mk 1 "GREAT!" 100 200 "#22d3ee" (1 # 2) (2 # 100) 0;
                  FloatingText.mk 2 "PERFECT!" 100 200 "#22d3ee" (1 # 2) 1 0]
                 [] [])) as (e' & A & B & _); [simpl; lia | simpl; lia | simpl; lia |].
  exists e'. split; [exact A|]. rewrite B. vm_compute. reflexivity.
Defined.

(** ** The screen shake *)

Lemma decayShake_spec (s : Q) :
  0 <= s ->
  (1 <= s -> decayShake s == s - 1) /\ (s <= 1 -> decayShake s == 0).
Proof.
  intros Hs. unfold decayShake, Math_max.
  destruct (num_gt s 0) eqn:G; [apply num_gt_iff in G | apply num_lt_false_iff in G].
  - destruct (Qle_bool (s - 1) 0) eqn:E.
    + apply Qle_bool_iff in E. split; intros H; lra.
    + assert (K : 0 < s - 1).
      { apply Qnot_le_lt. intros K. apply Qle_bool_iff in K. congruence. }
      split; intros H; lra.
  - split; intros H; lra.
Qed.

Lemma decayShake_iter (n : nat) (s : Q) :
  0 <= s ->
  (inject_Z (Z.of_nat n) <= s -> Nat.iter n decayShake s == s - inject_Z (Z.of_nat n)) /\
  (s <= inject_Z (Z.of_nat n) -> Nat.iter n decayShake s == 0).
Proof.
  intros Hs. induction n as [|n IH].
  - change (inject_Z (Z.of_nat 0)) with 0.
    change (Nat.iter 0 decayShake s) with s.
    split; intros H; lra.
  - rewrite Nat2Z.inj_succ, <- Z.add_1_r, inject_Z_plus.
    change (Nat.iter (S n) decayShake s) with (decayShake (Nat.iter n decayShake s)).
    change (inject_Z 1) with 1.
    destruct IH as [IH1 IH2].
    set (v := Nat.iter n decayShake s) in *.
    set (k := inject_Z (Z.of_nat n)) in *.
    destruct (Qlt_le_dec s k) as [K|K].
    + assert (V : v == 0) by (apply IH2; lra).
      destruct (decayShake_spec v) as [_ D]; [lra|].
      split; intros H; [lra | apply D; lra].
    + assert (V : v == s - k) by (apply IH1; exact K).
      destruct (decayShake_spec v) as [D1 D2]; [lra|].
      split; intros H; [assert (D : decayShake v == v - 1) by (apply D1; lra); lra
                       | apply D2; lra].
Qed.

(** X16: the shake intensity set by a hit (10, or 25 for a BLOOM) goes down
    by one per frame and stops at 0: after [n] frames without another hit it
    is the start value minus [n] while that is not negative, and 0 from then
    on; so it is back to 0 after exactly 10 frames, 25 for a BLOOM. *)
Theorem shake_wears_off (rating : Rating) (n : nat) :
  let start := shakeOfHit rating in
  (inject_Z (Z.of_nat n) <= start ->
     Nat.iter n decayShake start == start - inject_Z (Z.of_nat n)) /\
  (start <= inject_Z (Z.of_nat n) -> Nat.iter n decayShake start == 0).
Proof.
  cbv zeta. apply decayShake_iter. destruct rating; simpl; lra.
Qed.

Lemma shake_wears_off_witness :
  Nat.iter 9 decayShake (shakeOfHit GREAT) == 1 /\
  Nat.iter 10 decayShake (shakeOfHit GREAT) == 0.
Proof.
  destruct (shake_wears_off GREAT 9) as (A & _).
  destruct (shake_wears_off GREAT 10) as (_ & B).
  split; [rewrite A; [reflexivity | vm_compute; discriminate]
         | apply B; vm_compute; discriminate].
Defined.

(** ** The demo track *)

Lemma demoLoop_beats (fuel : nat) (duration beatInterval startOffset t : PrimFloat.float)
      (beats result : list BeatData.t) :
  demoLoop fuel duration beatInterval startOffset t beats = Some result ->
  Forall (demo_beat startOffset duration) beats ->
  Forall (demo_beat startOffset duration) result.
Proof.
  revert t beats.
  induction fuel as [|fuel IH]; intros t beats; cbn [demoLoop];
    destruct (PrimFloat.ltb t duration) eqn:L; try discriminate;
    try (intros [= <-]; auto).
  cbv zeta.
  assert (New : forall l, (l = 0 \/ l = 1 \/ l = 2)%Z ->
            PrimFloat.leb startOffset t = true ->
            Forall (demo_beat startOffset duration) beats ->
            Forall (demo_beat startOffset duration) (beats ++ [BeatData.mk t l])).
  { intros l Hl S F. apply Forall_app. split; [exact F|].
    constructor; [|constructor]. repeat split; simpl; auto. }
  destruct (PrimFloat.leb startOffset t) eqn:S.
  - destruct (num_lt _ _).
    + intros E F. apply (IH _ _ E). apply New; auto.
    + destruct (Z.rem _ 2 =? 0)%Z; intros E F; apply (IH _ _ E); apply New; auto.
  - apply IH.
Qed.

Lemma demoLoop_more_fuel (fuel k : nat) (duration beatInterval startOffset t : PrimFloat.float)
      (beats result : list BeatData.t) :
  demoLoop fuel duration beatInterval startOffset t beats = Some result ->
  demoLoop (fuel + k) duration beatInterval startOffset t beats = Some result.
Proof.
  revert t beats. induction fuel as [|fuel IH]; intros t beats.
  - cbn [demoLoop]. destruct (PrimFloat.ltb t duration) eqn:L; [discriminate|].
    intros E. destruct k; cbn [Nat.add demoLoop]; rewrite L; exact E.
  - cbn [Nat.add demoLoop]. destruct (PrimFloat.ltb t duration); [|auto].
    apply IH.
Qed.

Lemma ascending_sorted (l : list BeatData.t) :
  ascending l = true -> StronglySorted earlier l.
Proof.
  induction l as [|a l IH]; cbn [ascending]; intros H; [constructor|].
  apply andb_true_iff in H as [H1 H2].
  constructor; [apply IH, H2|].
  apply Forall_forall. intros b Hb. exact (proj1 (forallb_forall _ _) H1 b Hb).
Qed.

Lemma createDemoTrack_136 (s : AudioService.t) :
  exists beats,
    createDemoTrack 136 s = Some (AudioService.setBuffer (AudioService.mkBuffer 30) s, beats) /\
    List.length beats = 127%nat /\ ascending beats = true.
Proof.
  unfold createDemoTrack.
  match goal with
  | |- context [demoLoop ?f ?a ?b ?c ?d ?e] =>
      destruct (demoLoop f a b c d e) as [r|] eqn:E
  end.
  - exists r. split; [reflexivity|].
    vm_compute in E. injection E as <-. split; vm_compute; reflexivity.
  - vm_compute in E. discriminate.
Qed.

Lemma createDemoTrack_135 (s : AudioService.t) : createDemoTrack 135 s = None.
Proof.
  unfold createDemoTrack.
  match goal with
  | |- context [demoLoop ?f ?a ?b ?c ?d ?e] =>
      destruct (demoLoop f a b c d e) as [r|] eqn:E
  end; [|reflexivity].
  vm_compute in E. discriminate.
Qed.

Lemma createDemoTrack_more_fuel (fuel k : nat) (s s' : AudioService.t)
      (beats : list BeatData.t) :
  createDemoTrack fuel s = Some (s', beats) ->
  createDemoTrack (fuel + k) s = Some (s', beats).
Proof.
  unfold createDemoTrack.
  match goal with
  | |- context [demoLoop fuel ?a ?b ?c ?d ?e] =>
      destruct (demoLoop fuel a b c d e) as [r|] eqn:E; [|discriminate];
      rewrite (demoLoop_more_fuel fuel k a b c d e r E)
  end.
  auto.
Qed.

Lemma createDemoTrack_ends (fuel : nat) (s : AudioService.t) :
  (136 <= fuel)%nat -> createDemoTrack fuel s <> None.
Proof.
  intros Hf. destruct (createDemoTrack_136 s) as (r & E & _).
  replace fuel with (136 + (fuel - 136))%nat by lia.
  rewrite (createDemoTrack_more_fuel _ _ _ _ _ E). discriminate.
Qed.

Lemma createDemoTrack_needs_136 (fuel : nat) (s : AudioService.t) :
  (fuel < 136)%nat -> createDemoTrack fuel s = None.
Proof.
  intros Hf. destruct (createDemoTrack fuel s) as [[s' r]|] eqn:E; [|reflexivity].
  apply (createDemoTrack_more_fuel fuel (135 - fuel)) in E.
  replace (fuel + (135 - fuel))%nat with 135%nat in E by lia.
  rewrite createDemoTrack_135 in E. discriminate.
Qed.

Lemma demo_track_is_playable_facts (fuel : nat) (s s' : AudioService.t)
      (beats : list BeatData.t) :
  createDemoTrack fuel s = Some (s', beats) ->
  AudioService.isReady s' = true /\ playable s' /\
  AudioService.getDuration s' = 30 /\
  List.length beats = 127%nat /\
  Forall (demo_beat demo_startOffset demo_duration) beats /\
  StronglySorted earlier beats.
Proof.
  intros C.
  assert (Hf : (136 <= fuel)%nat).
  { destruct (Nat.le_gt_cases 136 fuel) as [H | H]; [exact H|].
    rewrite (createDemoTrack_needs_136 fuel s H) in C. discriminate. }
  destruct (createDemoTrack_136 s) as (r & E & Len & Asc).
  apply (createDemoTrack_more_fuel 136 (fuel - 136)) in E.
  replace (136 + (fuel - 136))%nat with fuel in E by lia.
  rewrite E in C. injection C as <- <-.
  split; [reflexivity|]. split.
  - unfold playable, AudioService.setBuffer, AudioService.init.
    destruct (AudioService.ctx s) eqn:X; simpl; rewrite ?X; intros _; discriminate.
  - split; [reflexivity|]. split; [exact Len|]. split; [|apply ascending_sorted, Asc].
    revert E. unfold createDemoTrack.
    match goal with
    | |- context [demoLoop fuel ?a ?b ?c ?d ?e] =>
        destruct (demoLoop fuel a b c d e) as [r'|] eqn:E'; [|discriminate]
    end.
    intros [= <-]. apply (demoLoop_beats _ _ _ _ _ _ _ E'). constructor.
Qed.

(** X17: the loop of [createDemoTrack], run on doubles, ends after exactly
    136 iterations, and it leaves the audio service ready, with a context,
    for a track of 30 seconds.  It returns 127 beats, each in lane 0, 1 or 2
    and at a time that is at least 2 and less than 30, in strictly ascending
    order of time. *)
Theorem demo_track_is_playable (fuel : nat) (s : AudioService.t) :
  ((136 <= fuel)%nat -> createDemoTrack fuel s <> None) /\
  ((fuel < 136)%nat -> createDemoTrack fuel s = None) /\
  forall s' beats,
    createDemoTrack fuel s = Some (s', beats) ->
    AudioService.isReady s' = true /\ playable s' /\
    AudioService.getDuration s' = 30 /\
    List.length beats = 127%nat /\
    Forall (demo_beat demo_startOffset demo_duration) beats /\
    StronglySorted earlier beats.
Proof.
  split; [apply createDemoTrack_ends|].
  split; [apply createDemoTrack_needs_136|].
  intros s' beats. apply demo_track_is_playable_facts.
Qed.

Lemma demo_track_is_playable_witness :
  createDemoTrack 136 AudioService.new <> None /\
  createDemoTrack 135 AudioService.new = None.
Proof.
  split.
  - destruct (demo_track_is_playable 136 AudioService.new) as (H & _).
    apply H. lia.
  - destruct (demo_track_is_playable 135 AudioService.new) as (_ & H & _).
    apply H. lia.
Defined.

(** ** The demo button *)

Lemma stop_ready (s : AudioService.t) :
  AudioService.isReady (AudioService.stop s) = AudioService.isReady s.
Proof. unfold AudioService.stop. destruct (AudioService.source s); reflexivity. Qed.

Lemma call_ready (c : AudioCall) (s : AudioService.t) :
  AudioService.isReady s = true -> AudioService.isReady (audioCall c s) = true.
Proof.
  destruct s as [[x|] [n|] [b|] st]; destruct c; simpl; intros H;
    try exact H; try reflexivity; discriminate.
Qed.

Lemma rerender_ready (before : GameState) (g : Game) :
  AudioService.isReady (audio g) = true ->
  AudioService.isReady (audio (rerender before g)) = true.
Proof.
  intros H. unfold rerender, mainLoopEffect.
  destruct (GameState_eqb before (gameState g)); [exact H|].
  destruct (GameState_eqb (gameState g) PLAYING); simpl; [exact H|].
  rewrite stop_ready. exact H.
Qed.

Lemma perform_ready (JSON_parse : string -> option JSValue) (a : Action) (g : Game) :
  AudioService.isReady (audio g) = true ->
  AudioService.isReady (audio (perform JSON_parse a g)) = true.
Proof.
  intros H. destruct a; simpl.
  - destruct e; simpl.
    + apply (call_ready (CallAdvance dt)), H.
    + destruct (frame g); [|exact H].
      destruct (song_over g) eqn:O.
      * rewrite loop_phases, O. apply rerender_ready. simpl.
        destruct (decayed_frame g) as (_ & _ & Ea & _). rewrite Ea. exact H.
      * destruct (loop_goes_on g O) as (_ & _ & C). rewrite C. exact H.
    + destruct (handleLaneInput_keeps laneIndex draw g) as (_ & _ & C & _).
      rewrite C. exact H.
  - exact H.
  - reflexivity.
  - unfold startGame. rewrite H. cbn [negb].
    destruct (loadChart JSON_parse overrideBeats g); try exact H.
    apply rerender_ready. simpl. apply (call_ready (CallPlay 3)), H.
  - unfold restart. destruct (negb (GameState_eqb (gameState g) FINISHED)); [exact H|].
    apply rerender_ready. simpl. apply (call_ready (CallPlay 3)), H.
  - unfold mainMenu. destruct (negb (GameState_eqb (gameState g) FINISHED)); [exact H|].
    apply rerender_ready. exact H.
Qed.

Lemma session_ready (JSON_parse : string -> option JSValue) (acts : list Action) (g : Game) :
  AudioService.isReady (audio g) = true ->
  AudioService.isReady (audio (session JSON_parse acts g)) = true.
Proof.
  revert g. unfold session. induction acts as [|a acts IH]; intros g H; simpl; [exact H|].
  apply IH, perform_ready, H.
Qed.

Lemma parseBeats_demo (beats : list BeatData.t) (i : nat) :
  exists parsed,
    parseBeats i (map beatDataValue beats) = Some parsed /\
    List.length parsed = List.length beats /\
    Forall2 (fun d b => time b = JNumber (Q_of_double (BeatData.time d)) /\
                        lane b = JNumber (inject_Z (BeatData.lane d)) /\ pending b)
      beats parsed.
Proof.
  revert i. induction beats as [|d beats IH]; intros i; simpl.
  - exists []. repeat split. constructor.
  - destruct (IH (S i)) as (parsed & -> & L & F).
    eexists. split; [reflexivity|]. split; [simpl; f_equal; exact L|].
    constructor; [|exact F]. repeat split.
Qed.

Lemma demo_beat_playable (d : BeatData.t) (b : Beat) :
  demo_beat demo_startOffset demo_duration d ->
  time b = JNumber (Q_of_double (BeatData.time d)) /\
  lane b = JNumber (inject_Z (BeatData.lane d)) /\ pending b ->
  playable_beat b.
Proof.
  intros (L & _) (T & La & P). split; [exact P|]. split.
  - exists (Q_of_double (BeatData.time d)). rewrite T. reflexivity.
  - rewrite La. destruct L as [-> | [-> | ->]]; simpl; auto.
Qed.

(** X18: the demo button always starts the game.  Once [loadDemo] has
    created the demo track, whatever the session does before the timeout
    fires (typing in the chart box included), the timeout puts the game in
    PLAYING without any alert, on a chart that has one beat per demo beat,
    each pending, with a number for time and in lane 0, 1 or 2, in ascending
    order of time. *)
Theorem demo_always_starts (JSON_parse : string -> option JSValue)
        (JSON_stringify : list JSValue -> string)
        (fuel : nat) (g g1 : Game) (demoBeats : list JSValue) (acts : list Action) :
  loadDemo JSON_stringify fuel g = Some (g1, demoBeats) ->
  let g2 := session JSON_parse acts g1 in
  let g' := loadDemoTimeout JSON_parse demoBeats g2 in
  gameState g' = PLAYING /\
  alerts g' = alerts g2 /\
  List.length (beatsRef g') = List.length demoBeats /\
  Forall playable_beat (beatsRef g') /\
  StronglySorted time_le (beatsRef g').
Proof.
  unfold loadDemo. destruct (createDemoTrack fuel (audio g)) as [[a beats]|] eqn:C;
    [|discriminate].
  intros H. injection H as <- <-. cbv zeta.
  destruct (demo_track_is_playable_facts fuel (audio g) a beats C) as (R & _ & _ & _ & D & _).
  assert (R2 : AudioService.isReady
                 (audio (session JSON_parse acts
                           (setRawBeatsInput (JSON_stringify (map beatDataValue beats))
                              (set_audio a g)))) = true)
    by (apply session_ready; exact R).
  set (g2 := session JSON_parse acts _) in *.
  destruct (parseBeats_demo beats 0) as (parsed & P & Len & F).
  assert (L : loadChart JSON_parse (Some (map beatDataValue beats)) g2
              = Chart (Array_sort parsed)).
  { unfold loadChart. rewrite P. reflexivity. }
  assert (Pl : Forall playable_beat parsed).
  { clear - F D. induction F as [|d b ds bs Hd _ IH]; [constructor|].
    inversion D; subst. constructor; [eapply demo_beat_playable; eassumption | auto]. }
  unfold loadDemoTimeout.
  destruct (startGame_cases JSON_parse (Some (map beatDataValue beats)) g2)
    as [(x & _ & [K | [K | K]]) | (c & _ & L' & S & B & _)]; try congruence.
  rewrite L in L'. injection L' as <-.
  split; [exact S|]. split.
  - unfold startGame. rewrite R2, L. cbn [negb].
    through_rerender rerender_keeps. destruct Hkeeps as (_ & _ & _ & _ & _ & A).
    rewrite A. reflexivity.
  - rewrite B. split; [|split].
    + rewrite <- (Permutation_length (Array_sort_perm parsed)), Len, length_map. reflexivity.
    + eapply Permutation_Forall; [apply Array_sort_perm | exact Pl].
    + apply Array_sort_sorted. eapply Forall_impl; [|exact Pl]. intros b (_ & T & _). exact T.
Qed.

Lemma loadDemo_ends (JSON_stringify : list JSValue -> string) (fuel : nat) (g : Game) :
  (136 <= fuel)%nat ->
  exists g1 demoBeats, loadDemo JSON_stringify fuel g = Some (g1, demoBeats).
Proof.
  intros Hf. unfold loadDemo.
  destruct (createDemoTrack fuel (audio g)) as [[a beats]|] eqn:C.
  - eexists. eexists. reflexivity.
  - exfalso. exact (createDemoTrack_ends fuel (audio g) Hf C).
Qed.

Lemma demo_always_starts_witness :
  exists g1 demoBeats,
    loadDemo (fun _ => EmptyString) 136 (initialGame AudioService.new)
      = Some (g1, demoBeats) /\
    gameState (loadDemoTimeout JSON_parse_examples demoBeats
                 (session JSON_parse_examples [TypeChart "{}"; StartGame None] g1))
      = PLAYING.
Proof.
  pose proof (loadDemo_ends (fun _ => EmptyString) 136 (initialGame AudioService.new)
                (Nat.le_refl 136)) as (g1 & demoBeats & E).
  exists g1, demoBeats. split; [exact E|].
  pose proof (demo_always_starts JSON_parse_examples (fun _ => EmptyString) 136
                (initialGame AudioService.new) g1 demoBeats
                [TypeChart "{}"; StartGame None] E) as (S & _).
  exact S.
Defined.

(** ** Starting, or one alert *)

Lemma loadChart_override (JSON_parse : string -> option JSValue)
      (l : list JSValue) (g : Game) (a : Alert) :
  loadChart JSON_parse (Some l) g <> EarlyReturn a.
Proof. unfold loadChart. destruct (parseBeats 0 l); discriminate. Qed.

Lemma loadChart_EarlyReturn (JSON_parse : string -> option JSValue)
      (overrideBeats : option (list JSValue)) (g : Game) (a : Alert) :
  loadChart JSON_parse overrideBeats g = EarlyReturn a <->
  overrideBeats = None /\ rawBeatsInput g = EmptyString /\ a = AlertNoChart.
Proof.
  split.
  - destruct overrideBeats as [l|]; [intros H; exfalso; exact (loadChart_override _ _ _ _ H)|].
    unfold loadChart. destruct (String.eqb (rawBeatsInput g) EmptyString) eqn:N.
    + apply String.eqb_eq in N. intros [= <-]. auto.
    + destruct (JSON_parse (rawBeatsInput g)) as [[| | | | |items|]|]; try discriminate.
      destruct (parseBeats 0 items); discriminate.
  - intros (-> & E & ->). unfold loadChart. rewrite E. reflexivity.
Qed.

(** X19: [startGame] either starts the game or shows exactly one alert and
    changes nothing else, never both.  The alert is the missing-audio one
    whenever the audio is not ready, whatever the chart; otherwise the
    missing-chart one for an empty chart box, and the invalid-chart one for
    every other chart that does not load. *)
Theorem startGame_starts_or_alerts (JSON_parse : string -> option JSValue)
        (overrideBeats : option (list JSValue)) (g : Game) :
  let g' := startGame JSON_parse overrideBeats g in
  (gameState g' = PLAYING /\ alerts g' = alerts g /\
   AudioService.isReady (audio g) = true /\
   exists chart, loadChart JSON_parse overrideBeats g = Chart chart /\ beatsRef g' = chart)
  \/
  (exists a,
     g' = alert a g /\
     (AudioService.isReady (audio g) = false -> a = AlertNoAudio) /\
     (AudioService.isReady (audio g) = true ->
        (a = AlertNoChart <-> overrideBeats = None /\ rawBeatsInput g = EmptyString) /\
        (a = AlertInvalidChart <-> loadChart JSON_parse overrideBeats g = Thrown) /\
        a <> AlertNoAudio)).
Proof.
  cbv zeta. unfold startGame.
  destruct (AudioService.isReady (audio g)) eqn:R; cbn [negb].
  - destruct (loadChart JSON_parse overrideBeats g) as [c|a|] eqn:L.
    + left. through_rerender rerender_keeps. destruct Hkeeps as (A & B & _ & _ & _ & Al).
      rewrite A, B, Al. simpl. repeat split. exists c. auto.
    + right. exists a. split; [reflexivity|]. split; [discriminate|]. intros _.
      apply loadChart_EarlyReturn in L as (O & E & ->).
      split; [split; auto|]. split; [split; discriminate | discriminate].
    + right. exists AlertInvalidChart. split; [reflexivity|]. split; [discriminate|].
      intros _. split; [|split; [split; auto | discriminate]].
      split; [discriminate|]. intros (O & E).
      assert (K : loadChart JSON_parse overrideBeats g = EarlyReturn AlertNoChart)
        by (apply loadChart_EarlyReturn; auto).
      congruence.
  - right. exists AlertNoAudio. split; [reflexivity|]. split; [reflexivity|]. discriminate.
Qed.

Lemma startGame_starts_or_alerts_witness :
  startGame JSON_parse_examples None (setRawBeatsInput "[2, 1, 1.1]" (initialGame AudioService.new))
  = alert AlertNoAudio (setRawBeatsInput "[2, 1, 1.1]" (initialGame AudioService.new)).
Proof.
  destruct (startGame_starts_or_alerts JSON_parse_examples None
              (setRawBeatsInput "[2, 1, 1.1]" (initialGame AudioService.new)))
    as [(S & _) | (a & E & N & _)].
  - vm_compute in S. discriminate S.
  - rewrite E, N; reflexivity.
Defined.
